(** * Tempesta FW access-log shipper (utils/tfw_logger.cc)

    A shallow embedding of the user-space logger: the column block built by
    [make_block], the binary event decoder [read_access_log_event], the span
    walker [callback], the supervisor loop of [main] and the debug dump
    [hexdump]; and, of the kernel side (fw/connection.c), the table of
    connection hooks and the receive loop [tfw_connection_recv]. The
    properties established about them follow the definitions. *)

From Stdlib Require Import ZArith List Ascii String Bool Lia.
From coqutil Require Import Byte Word.LittleEndianList.
Import ListNotations.

Local Open Scope Z_scope.

(** ** Machine integers *)

(** Conversion of an integer to the 32-bit [int] of the C++ code
    (two's-complement wrap-around). *)
Definition to_int (z : Z) : Z := (z + 2 ^ 31) mod 2 ^ 32 - 2 ^ 31.

Definition INT_MAX : Z := 2 ^ 31 - 1.

(** errno values of <errno.h> on Linux. *)
Definition ENOENT : Z := 2.
Definition EINVAL : Z := 22.

(** ** Raw memory behind a [const char *]

    A pointer is modelled by the list of bytes that starts at it; an offset
    past the end of the list reads as zero bytes. Reads are also logged as
    [(offset, length)] ranges, so that what the decoder touches can be
    compared with the [size] it was given. *)

Definition bytes_at (data : list byte) (off : Z) (n : nat) : list byte :=
  firstn n (skipn (Z.to_nat off) data).

(** Dereferencing [p] as an unsigned integer of [n] bytes on a
    little-endian host. *)
Definition read_uint (data : list byte) (off : Z) (n : nat) : Z :=
  le_combine (bytes_at data off n).

Definition ReadLog := list (Z * Z).

(** ** The binary event format (fw/access_log.h) *)

(** Modelled from the spec: the enumeration [TfwBinLogFields] of
    fw/access_log.h, which is not part of the sources at hand; the
    enumerators are the ordinals 0-9 of the field table, in that order, and
    [TFW_MMAP_LOG_MAX] closes the enumeration. *)
Inductive TfwBinLogFields :=
| TFW_MMAP_LOG_ADDR
| TFW_MMAP_LOG_METHOD
| TFW_MMAP_LOG_VERSION
| TFW_MMAP_LOG_STATUS
| TFW_MMAP_LOG_RESP_CONT_LEN
| TFW_MMAP_LOG_RESP_TIME
| TFW_MMAP_LOG_VHOST
| TFW_MMAP_LOG_URI
| TFW_MMAP_LOG_REFERER
| TFW_MMAP_LOG_USER_AGENT.

Definition TFW_MMAP_LOG_MAX : nat := 10.

Definition all_fields : list TfwBinLogFields :=
  [ TFW_MMAP_LOG_ADDR; TFW_MMAP_LOG_METHOD; TFW_MMAP_LOG_VERSION;
    TFW_MMAP_LOG_STATUS; TFW_MMAP_LOG_RESP_CONT_LEN; TFW_MMAP_LOG_RESP_TIME;
    TFW_MMAP_LOG_VHOST; TFW_MMAP_LOG_URI; TFW_MMAP_LOG_REFERER;
    TFW_MMAP_LOG_USER_AGENT ].

(** The integer value of an enumerator. *)
Definition field_ord (f : TfwBinLogFields) : nat :=
  match f with
  | TFW_MMAP_LOG_ADDR => 0
  | TFW_MMAP_LOG_METHOD => 1
  | TFW_MMAP_LOG_VERSION => 2
  | TFW_MMAP_LOG_STATUS => 3
  | TFW_MMAP_LOG_RESP_CONT_LEN => 4
  | TFW_MMAP_LOG_RESP_TIME => 5
  | TFW_MMAP_LOG_VHOST => 6
  | TFW_MMAP_LOG_URI => 7
  | TFW_MMAP_LOG_REFERER => 8
  | TFW_MMAP_LOG_USER_AGENT => 9
  end%nat.

(** The cast [(TfwBinLogFields)i]; [None] is a value outside the
    enumeration (the [default:] label of a switch). *)
Definition field_of_int (i : nat) : option TfwBinLogFields :=
  nth_error all_fields i.

(** Modelled from the spec: [tfw_mmap_log_field_len] of fw/access_log.h,
    which is not part of the sources at hand. The encoded length is 16, 1,
    1, 2, 4 and 4 bytes for the ordinals 0-5. For the string ordinals 6-9
    the decoder overwrites the result before any use, so the value chosen
    here (0) cannot be observed. *)
Definition tfw_mmap_log_field_len (f : TfwBinLogFields) : Z :=
  match f with
  | TFW_MMAP_LOG_ADDR => 16
  | TFW_MMAP_LOG_METHOD => 1
  | TFW_MMAP_LOG_VERSION => 1
  | TFW_MMAP_LOG_STATUS => 2
  | TFW_MMAP_LOG_RESP_CONT_LEN => 4
  | TFW_MMAP_LOG_RESP_TIME => 4
  | _ => 0
  end.

(** The header [TfwBinLogEvent] is declared in fw/access_log.h too. The
    decoder only needs its size, its three members and the two type tags, so
    the development is parametric in them. The bound on the size is far
    above that of any struct of three scalars; it keeps the byte count a
    decoder returns inside the range of [int]. *)
Record TfwBinLogEvent := {
  sizeof_TfwBinLogEvent : Z;
  sizeof_TfwBinLogEvent_range : 0 < sizeof_TfwBinLogEvent <= 65536;
  event_type : list byte -> Z;
  event_fields : list byte -> Z;
  event_timestamp : list byte -> Z;
  TFW_MMAP_LOG_TYPE_ACCESS : Z;
  TFW_MMAP_LOG_TYPE_DROPPED : Z;
  TFW_MMAP_LOG_TYPE_distinct :
    TFW_MMAP_LOG_TYPE_ACCESS <> TFW_MMAP_LOG_TYPE_DROPPED
}.

(** Modelled from the spec: the macro [TFW_MMAP_LOG_FIELD_IS_SET] of
    fw/access_log.h: bit [i] of the mask is set exactly when field [i] is
    present in the body. *)
Definition TFW_MMAP_LOG_FIELD_IS_SET
    (L : TfwBinLogEvent) (event : list byte) (i : nat) : bool :=
  Z.testbit (event_fields L event) (Z.of_nat i).

(** Modelled from the spec: a packed header with the members in the order
    the frame description lists them: a one-byte type, a 16-bit field mask
    and the 64-bit timestamp, all little-endian; ACCESS is type 1 and
    DROPPED is type 2. *)
Definition spec_sizeof : Z := 11.

Definition spec_layout : TfwBinLogEvent :=
  {| sizeof_TfwBinLogEvent := spec_sizeof;
     sizeof_TfwBinLogEvent_range := ltac:(unfold spec_sizeof; lia);
     event_type := fun ev => read_uint ev 0 1;
     event_fields := fun ev => read_uint ev 1 2;
     event_timestamp := fun ev => read_uint ev 3 8;
     TFW_MMAP_LOG_TYPE_ACCESS := 1;
     TFW_MMAP_LOG_TYPE_DROPPED := 2;
     TFW_MMAP_LOG_TYPE_distinct := ltac:(discriminate) |}.

(** ** Columns and blocks (clickhouse-cpp, as used by the logger) *)

Module Type_.
Inductive Code := UInt8 | UInt16 | UInt32 | UInt64 | IPv6 | String.
End Type_.

(** A cell of a column. Integer columns of every width hold a [VUInt]. *)
Inductive Value :=
| VUInt (z : Z)
| VIPv6 (addr : list byte)
| VString (s : list byte).

Record Column := {
  col_name : string;
  col_code : Type_.Code;
  col_rows : list Value
}.

Definition Block := list Column.

Record TfwField := {
  name : string;
  code : Type_.Code
}.

Definition tfw_fields (f : TfwBinLogFields) : TfwField :=
  match f with
  | TFW_MMAP_LOG_ADDR => {| name := "address"; code := Type_.IPv6 |}
  | TFW_MMAP_LOG_METHOD => {| name := "method"; code := Type_.UInt8 |}
  | TFW_MMAP_LOG_VERSION => {| name := "version"; code := Type_.UInt8 |}
  | TFW_MMAP_LOG_STATUS => {| name := "status"; code := Type_.UInt16 |}
  | TFW_MMAP_LOG_RESP_CONT_LEN =>
      {| name := "response_content_length"; code := Type_.UInt32 |}
  | TFW_MMAP_LOG_RESP_TIME =>
      {| name := "response_time"; code := Type_.UInt32 |}
  | TFW_MMAP_LOG_VHOST => {| name := "vhost"; code := Type_.String |}
  | TFW_MMAP_LOG_URI => {| name := "uri"; code := Type_.String |}
  | TFW_MMAP_LOG_REFERER => {| name := "referer"; code := Type_.String |}
  | TFW_MMAP_LOG_USER_AGENT => {| name := "user_agent"; code := Type_.String |}
  end.

(** [block->AppendColumn(name, tfw_column_factory.create(code))]: a new,
    empty column at the end of the block. *)
Definition AppendColumn (block : Block) (n : string) (c : Type_.Code) : Block :=
  block ++ [ {| col_name := n; col_code := c; col_rows := [] |} ].

(** The [for (i = TFW_MMAP_LOG_ADDR; i < TFW_MMAP_LOG_MAX; ++i)] loop of
    [make_block], counting [i] up from its current value. *)
Fixpoint make_block_loop (fuel i : nat) (block : Block) : Block :=
  match fuel with
  | O => block
  | S fuel' =>
      if (i <? TFW_MMAP_LOG_MAX)%nat then
        match field_of_int i with
        | Some f =>
            let field := tfw_fields f in
            make_block_loop fuel' (S i)
              (AppendColumn block (name field) (code field))
        | None => block
        end
      else block
  end.

Definition make_block : Block :=
  let block := AppendColumn [] "timestamp" Type_.UInt64 in
  make_block_loop TFW_MMAP_LOG_MAX (field_ord TFW_MMAP_LOG_ADDR) block.

(** Appending [v] to the column at index [ind] of the block; the column
    keeps its name and type. *)
Definition col_append (v : Value) (c : Column) : Column :=
  {| col_name := col_name c; col_code := col_code c;
     col_rows := col_rows c ++ [v] |}.

Fixpoint Append (ind : nat) (v : Value) (block : Block) : Block :=
  match block, ind with
  | [], _ => []
  | c :: rest, O => col_append v c :: rest
  | c :: rest, S k => c :: Append k v rest
  end.

(** Number of rows of each column, in column order. *)
Definition col_lengths (block : Block) : list nat :=
  map (fun c => List.length (col_rows c)) block.

Definition schema (block : Block) : list (string * Type_.Code) :=
  map (fun c => (col_name c, col_code c)) block.

(** ** The event decoder *)

(** What [read_access_log_event] holds in its locals while it walks the
    body: the cursor [p] as an offset from [data], the bytes left, the block
    it appends to and the log of its reads. *)
Record Cursor := {
  cur_p : Z;
  cur_size : Z;
  cur_block : Block;
  cur_reads : ReadLog
}.

(** Width of the value type an [INT_CASE] dereferences [p] as. *)
Definition sizeof_val (f : TfwBinLogFields) : nat :=
  match f with
  | TFW_MMAP_LOG_ADDR => 16
  | TFW_MMAP_LOG_METHOD => 1
  | TFW_MMAP_LOG_VERSION => 1
  | TFW_MMAP_LOG_STATUS => 2
  | TFW_MMAP_LOG_RESP_CONT_LEN => 4
  | TFW_MMAP_LOG_RESP_TIME => 4
  | _ => 0
  end%nat.

(** The value an [INT_CASE] appends for a present field. *)
Definition int_value (f : TfwBinLogFields) (data : list byte) (p : Z) : Value :=
  match f with
  | TFW_MMAP_LOG_ADDR => VIPv6 (bytes_at data p 16)
  | _ => VUInt (read_uint data p (sizeof_val f))
  end.

(** Modelled from the spec: what [Append(0)] stores in a column of the
    clickhouse client library, which is not part of the sources at hand: 0
    for an integer column and the all-zero address for the IPv6 column. *)
Definition zero_value (f : TfwBinLogFields) : Value :=
  match f with
  | TFW_MMAP_LOG_ADDR => VIPv6 (repeat Byte.x00 16)
  | _ => VUInt 0
  end.

Definition is_string_field (f : TfwBinLogFields) : bool :=
  match f with
  | TFW_MMAP_LOG_VHOST | TFW_MMAP_LOG_URI
  | TFW_MMAP_LOG_REFERER | TFW_MMAP_LOG_USER_AGENT => true
  | _ => false
  end.

(** One iteration of the field loop, for the loop counter [i]. [inr] is a
    [return -1] out of the loop, with the locals as they are at that point;
    [inl] carries the locals into the next iteration. *)
Definition field_step (L : TfwBinLogEvent) (data : list byte)
    (i : nat) (c : Cursor) : Cursor + Cursor :=
  let ind := S i in
  let p := cur_p c in
  let size := cur_size c in
  let is_set := TFW_MMAP_LOG_FIELD_IS_SET L data i in
  match field_of_int i with
  | None => inr c (* default: "Unknown field type" *)
  | Some f =>
      let len := tfw_mmap_log_field_len f in
      if is_string_field f then
        if negb is_set then
          inl {| cur_p := p; cur_size := size;
                 cur_block := Append ind (VString []) (cur_block c);
                 cur_reads := cur_reads c |}
        else
          let len := read_uint data p 2 in
          let reads := cur_reads c ++ [(p, 2)] in
          if len + 2 >? size then
            inr {| cur_p := p; cur_size := size;
                   cur_block := cur_block c; cur_reads := reads |}
          else
            let s := bytes_at data (p + 2) (Z.to_nat len) in
            let len := len + 2 in
            inl {| cur_p := p + len; cur_size := size - len;
                   cur_block := Append ind (VString s) (cur_block c);
                   cur_reads := reads ++ [(p + 2, len - 2)] |}
      else
        if len >? size then inr c
        else if is_set then
          inl {| cur_p := p + len; cur_size := size - len;
                 cur_block := Append ind (int_value f data p) (cur_block c);
                 cur_reads := cur_reads c ++ [(p, Z.of_nat (sizeof_val f))] |}
        else
          inl {| cur_p := p; cur_size := size;
                 cur_block := Append ind (zero_value f) (cur_block c);
                 cur_reads := cur_reads c |}
  end.

(** The [for (i = TFW_MMAP_LOG_ADDR; i < TFW_MMAP_LOG_MAX; ++i)] loop over
    the counters [cs]; the result is the [int] the function returns together
    with the final locals. *)
Fixpoint fields_loop (L : TfwBinLogEvent) (data : list byte)
    (cs : list nat) (c : Cursor) : Z * Cursor :=
  match cs with
  | [] => (to_int (cur_p c), c) (* return p - data *)
  | i :: cs' =>
      match field_step L data i c with
      | inl c' => fields_loop L data cs' c'
      | inr c' => (-1, c')
      end
  end.

Definition field_counters : list nat :=
  seq (field_ord TFW_MMAP_LOG_ADDR) (TFW_MMAP_LOG_MAX - field_ord TFW_MMAP_LOG_ADDR).

(** [read_access_log_event(data, size, clickhouse)], with the block of
    [clickhouse] passed in and handed back: the returned triple is the
    [int] result, the block after the call and the reads made. *)
Definition read_access_log_event (L : TfwBinLogEvent) (data : list byte)
    (size : Z) (block : Block) : Z * Block * ReadLog :=
  let p := sizeof_TfwBinLogEvent L in
  let size := to_int (size - sizeof_TfwBinLogEvent L) in
  let block := Append 0 (VUInt (event_timestamp L data)) block in
  let c := {| cur_p := p; cur_size := size; cur_block := block;
              cur_reads := [(0, sizeof_TfwBinLogEvent L)] |} in
  let '(r, c') := fields_loop L data field_counters c in
  (r, cur_block c', cur_reads c').

(** ** The database client (utils/clickhouse.h) *)

(** Modelled from the spec: the class [TfwClickhouse] of utils/clickhouse.h,
    which is not part of the sources at hand. It owns the block being
    filled; [commit] inserts that block into the table as one append and
    replaces it by a fresh block from the block factory. The inserted blocks
    are kept in order, oldest first. *)
Record TfwClickhouse := {
  ch_block : Block;
  ch_committed : list Block
}.

Definition with_block (ch : TfwClickhouse) (block : Block) : TfwClickhouse :=
  {| ch_block := block; ch_committed := ch_committed ch |}.

Definition commit (ch : TfwClickhouse) : TfwClickhouse :=
  {| ch_block := make_block; ch_committed := ch_committed ch ++ [ch_block ch] |}.

(** ** Walking a span *)

(** Lines written to [cerr]. *)
Inductive Message :=
| DroppedEvents (count : Z)
| IncorrectEventLength
| UnsupportedLogType (type : Z).

(** The statement through which [callback] is left. *)
Inductive Exit :=
| ExitShortHeader    (* size < sizeof(TfwBinLogEvent) *)
| ExitDecodeFailed   (* read_access_log_event returned r < 0 *)
| ExitDroppedShort   (* DROPPED with fewer than 8 bytes left *)
| ExitDropped        (* DROPPED, count printed *)
| ExitUnsupported    (* default: label *)
| ExitCommitted.     (* end of the function, after commit() *)

Record CallbackResult := {
  res_clickhouse : TfwClickhouse;
  res_cerr : list Message;
  res_exit : Exit
}.

Definition sizeof_u64 : Z := 8.

(** The [do ... while (size > 0)] loop of [callback] and the [commit] that
    follows it. [data] is the memory at [p], [size] the bytes left. Every
    iteration that goes round consumes at least one byte, so [fuel]
    iterations are enough when [fuel] exceeds [size]; [None] is running out
    of fuel. *)
Fixpoint callback_loop (L : TfwBinLogEvent) (fuel : nat) (data : list byte)
    (size : Z) (ch : TfwClickhouse) : option CallbackResult :=
  match fuel with
  | O => None
  | S fuel' =>
      if size <? sizeof_TfwBinLogEvent L then
        Some {| res_clickhouse := ch; res_cerr := []; res_exit := ExitShortHeader |}
      else
        let type := event_type L data in
        if type =? TFW_MMAP_LOG_TYPE_ACCESS L then
          let '(r, block, _) := read_access_log_event L data size (ch_block ch) in
          let ch := with_block ch block in
          if r <? 0 then
            Some {| res_clickhouse := ch; res_cerr := []; res_exit := ExitDecodeFailed |}
          else
            let size := size - r in
            let data := skipn (Z.to_nat r) data in
            if size >? 0 then callback_loop L fuel' data size ch
            else
              Some {| res_clickhouse := commit ch; res_cerr := [];
                      res_exit := ExitCommitted |}
        else if type =? TFW_MMAP_LOG_TYPE_DROPPED L then
          let p := sizeof_TfwBinLogEvent L in
          let size := to_int (size - sizeof_TfwBinLogEvent L) in
          if sizeof_u64 >? size then
            Some {| res_clickhouse := ch; res_cerr := [IncorrectEventLength];
                    res_exit := ExitDroppedShort |}
          else
            Some {| res_clickhouse := ch;
                    res_cerr := [DroppedEvents (read_uint data p 8)];
                    res_exit := ExitDropped |}
        else
          Some {| res_clickhouse := ch; res_cerr := [UnsupportedLogType type];
                  res_exit := ExitUnsupported |}
  end.

Definition callback_fuel (size : Z) : nat := S (Z.to_nat size).

(** [callback(data, size, private_data)], with the client object passed in
    and handed back. *)
Definition callback (L : TfwBinLogEvent) (data : list byte) (size : Z)
    (ch : TfwClickhouse) : CallbackResult :=
  match callback_loop L (callback_fuel size) data size ch with
  | Some res => res
  | None => {| res_clickhouse := ch; res_cerr := []; res_exit := ExitShortHeader |}
  end.

(** ** The supervisor: [main] *)

Definition WAIT_FOR_FILE : Z := 1.

(** What a call of [open(FILE_PATH, O_RDWR)] gives back: the returned
    descriptor and the [errno] it leaves. *)
Record OpenResult := {
  open_ret : Z;
  open_errno : Z
}.

Inductive Exception :=
| runtime_error (errno : Z)   (* thrown by main on a failed open *)
| system_error.               (* thrown by std::thread::join on a thread
                                 that is not joinable *)

(** What [main] does to the outside world, in order. *)
Inductive Effect :=
| Print (line : string)
| Open (r : OpenResult)
| Sleep (seconds : Z)
| Spawn (ncpu : nat) (fd : Z) (host : string)
| Join (index : nat)
| Close (fd : Z).

(** How a run of [main] against a finite list of [open] results ends:
    [Waiting] is a run that is inside [open] again when the list is used
    up. *)
Inductive Outcome :=
| Returned (code : Z)
| Thrown (e : Exception)
| Waiting.

(** [for (i = 0; i < cpu_cnt; ++i) thrs[i].join()], from the counter [i]
    on, for [n] more iterations. The vector [thrs] records for each thread
    object whether it is joinable. Workers are taken to run to their end, so
    that joining a joinable thread returns. The boolean of the result tells
    whether the loop ran through. *)
Fixpoint join_loop (thrs : list bool) (i n : nat) : list Effect * list bool * bool :=
  match n with
  | O => ([], thrs, true)
  | S n' =>
      match nth_error thrs i with
      | Some true =>
          let thrs' := firstn i thrs ++ false :: skipn (S i) thrs in
          let '(t, thrs'', ok) := join_loop thrs' (S i) n' in
          (Join i :: t, thrs'', ok)
      | _ => ([], thrs, false)
      end
  end.

(** The [while (1)] loop of [main], run against the results [opens] of the
    successive calls of [open]. *)
Fixpoint supervisor (cpu_cnt : nat) (host : string) (thrs : list bool)
    (opens : list OpenResult) : list Effect * Outcome :=
  match opens with
  | [] => ([], Waiting)
  | r :: rest =>
      if open_ret r =? -1 then
        if negb (open_errno r =? ENOENT) then
          ([Open r], Thrown (runtime_error (open_errno r)))
        else
          let '(t, o) := supervisor cpu_cnt host thrs rest in
          (Open r :: Sleep WAIT_FOR_FILE :: t, o)
      else
        let fd := open_ret r in
        let spawns := map (fun i => Spawn i fd host) (seq 0 cpu_cnt) in
        let thrs := thrs ++ repeat true cpu_cnt in
        let '(joins, thrs, ok) := join_loop thrs 0 cpu_cnt in
        if ok then
          let '(t, o) := supervisor cpu_cnt host thrs rest in
          (Open r :: spawns ++ joins ++ Close fd :: t, o)
        else
          (Open r :: spawns ++ joins, Thrown system_error)
  end.

Definition tab : string := String (Ascii.ascii_of_nat 9) EmptyString.

(** [main(argc, argv)]: [argv0] is the program name, [args] the arguments
    after it, so [argc] is one more than their number. [cpu_cnt] is what
    [sysconf(_SC_NPROCESSORS_ONLN)] returned. *)
Definition main (argv0 : string) (args : list string) (cpu_cnt : nat)
    (opens : list OpenResult) : list Effect * Outcome :=
  let argc := Z.of_nat (S (List.length args)) in
  if negb (argc =? 2) then
    ([Print "Usage:"; Print (tab ++ argv0 ++ " <host>")], Returned (- EINVAL))
  else
    supervisor cpu_cnt (nth 0 args EmptyString) [] opens.

(** ** The debug dump: [hexdump] *)

(** [isprint] of the C locale. *)
Definition isprint (c : Z) : bool := (32 <=? c) && (c <=? 126).

(** The macro [PRINT_CHAR]. *)
Definition PRINT_CHAR (c : byte) : Ascii.ascii :=
  if isprint (byte.unsigned c) then Ascii.ascii_of_byte c else "."%char.

Definition hex_digit (d : Z) : Ascii.ascii :=
  nth (Z.to_nat d) (list_ascii_of_string "0123456789abcdef") "0"%char.

(** The hexadecimal digits of [z], the least significant first; there is
    always one digit. [fuel] bounds their number. *)
Fixpoint hex_digits (fuel : nat) (z : Z) : list Ascii.ascii :=
  match fuel with
  | O => []
  | S fuel' =>
      hex_digit (z mod 16)
      :: (if z / 16 =? 0 then [] else hex_digits fuel' (z / 16))
  end.

(** [printf] with the conversion [%0<width>x] on a value that is not
    negative and below 2^64: lower-case digits, padded with zeros on the
    left up to [width]. *)
Definition printf_0x (width : nat) (z : Z) : list Ascii.ascii :=
  let digits := rev (hex_digits 16 z) in
  repeat "0"%char (width - List.length digits) ++ digits.

(** [buf[k]], with zero for a byte past the list. *)
Definition byte_at (buf : list byte) (k : Z) : byte :=
  nth (Z.to_nat k) buf Byte.x00.

Definition dump_columns : list Z := map Z.of_nat (seq 0 16).

(** The body of the outer loop: what is printed for the line of offset
    [i], up to the newline. *)
Definition hexdump_line (buf : list byte) (buflen i : Z) : list Ascii.ascii :=
  printf_0x 6 i ++ list_ascii_of_string ": "
  ++ flat_map (fun j =>
                 if i + j <? buflen
                 then printf_0x 2 (byte.unsigned (byte_at buf (i + j)))
                      ++ [" "%char]
                 else list_ascii_of_string "   ")
              dump_columns
  ++ [" "%char]
  ++ flat_map (fun j =>
                 if i + j <? buflen then [PRINT_CHAR (byte_at buf (i + j))]
                 else [])
              dump_columns.

(** How the loop of [hexdump] ends: its test fails, or [i += 16] leaves the
    range of [int], which C++ leaves undefined. *)
Inductive DumpEnd :=
| LoopDone
| IntOverflow.

(** The loop [for (i = 0; i < buflen; i += 16)], from the current [i], an
    [int] like [buflen]. One line is printed per round; the lines are the
    elements of the list. The loop is followed up to the round whose
    [i += 16] overflows. *)
Fixpoint hexdump_loop (fuel : nat) (buf : list byte) (buflen i : Z)
    : list (list Ascii.ascii) * DumpEnd :=
  match fuel with
  | O => ([], LoopDone)
  | S fuel' =>
      if i <? buflen then
        let line := hexdump_line buf buflen i in
        if i + 16 >? INT_MAX then ([line], IntOverflow)
        else
          let '(lines, e) := hexdump_loop fuel' buf buflen (i + 16) in
          (line :: lines, e)
      else ([], LoopDone)
  end.

(** [hexdump(data, buflen)]: the lines written to the standard output and
    the way the loop ends. There are at most [buflen] rounds of the loop. *)
Definition hexdump (data : list byte) (buflen : Z)
    : list (list Ascii.ascii) * DumpEnd :=
  hexdump_loop (Z.to_nat buflen) data buflen 0.

(** * Connection management (fw/connection.c) *)

(** ** The table of connection hooks *)

(** What a call can end in besides returning: the kernel's [BUG_ON], and a
    store outside the array, which C leaves undefined. *)
Inductive Kernel (A : Type) :=
| Done (a : A)
| Bug
| OutOfBounds.

Arguments Done {A} a.
Arguments Bug {A}.
Arguments OutOfBounds {A}.

(** The header fw/connection.h is not part of the sources at hand: the
    number of slots and the mapping of a connection type to its slot are
    parameters. [Hooks] stands for a pointer to a [TfwConnHooks]. *)
Record HooksEnv := {
  Hooks : Type;
  TFW_CONN_MAX_PROTOS : nat;
  TFW_CONN_TYPE2IDX : Z -> nat
}.

(** The array [conn_hooks]; [None] is the null pointer. *)
Definition ConnHooks (E : HooksEnv) := list (option (Hooks E)).

(** The array as the kernel starts with it. *)
Definition no_hooks (E : HooksEnv) : ConnHooks E :=
  repeat None (TFW_CONN_MAX_PROTOS E).

(** [conn_hooks[hid] = hooks], for [hid] inside the array. *)
Fixpoint store {A : Type} (hid : nat) (a : A) (l : list A) : list A :=
  match l, hid with
  | [], _ => []
  | _ :: rest, O => a :: rest
  | x :: rest, S k => x :: store k a rest
  end.

Definition is_null {A : Type} (p : option A) : bool :=
  match p with None => true | Some _ => false end.

Definition tfw_connection_hooks_register (E : HooksEnv)
    (hooks : option (Hooks E)) (type : Z) (conn_hooks : ConnHooks E)
    : Kernel (ConnHooks E) :=
  let hid := TFW_CONN_TYPE2IDX E type in
  if (TFW_CONN_MAX_PROTOS E <=? hid)%nat
     || negb (is_null (nth hid conn_hooks None))
  then Bug
  else Done (store hid hooks conn_hooks).

Definition tfw_connection_hooks_unregister (E : HooksEnv) (type : Z)
    (conn_hooks : ConnHooks E) : Kernel (ConnHooks E) :=
  let hid := TFW_CONN_TYPE2IDX E type in
  if (hid <? TFW_CONN_MAX_PROTOS E)%nat then Done (store hid None conn_hooks)
  else OutOfBounds.

(** ** Receiving a chain of buffers *)

(** What [tfw_connection_recv] takes from other files: the return codes,
    the protocol of a connection, the test that stops receiving and the two
    message processors. A processor takes the state of the connection and
    a buffer, and gives the new state and its return code; the HTTP one also
    gives what it left in [splitted]. *)
Record RecvEnv := {
  Skb : Type;
  Conn : Type;
  T_OK : Z;
  T_POSTPONE : Z;
  T_DROP : Z;
  T_BAD : Z;
  T_BLOCK : Z;
  TFW_FSM_WS : Z;
  TFW_FSM_WSS : Z;
  TFW_CONN_PROTO : Conn -> Z;
  tfw_connection_stop_rcv : Conn -> bool;
  tfw_ws_msg_process : Conn -> Skb -> Conn * Z;
  tfw_http_msg_process : Conn -> Skb -> Conn * Z * option Skb
}.

(** What happens to a buffer: it is handed to a processor, which returns
    [r] and may queue the buffer [queued] split off it, or it is freed. *)
Inductive SkbEvent (E : RecvEnv) :=
| Processed (skb : Skb E) (r : Z) (queued : option (Skb E))
| Freed (skb : Skb E).

Arguments Processed {E} skb r queued.
Arguments Freed {E} skb.

Definition skb_of {E : RecvEnv} (ev : SkbEvent E) : Skb E :=
  match ev with Processed skb _ _ => skb | Freed skb => skb end.

(** The test [r == T_OK || r == T_POSTPONE || r == T_DROP]. *)
Definition recv_continues (E : RecvEnv) (r : Z) : bool :=
  (r =? T_OK E) || (r =? T_POSTPONE E) || (r =? T_DROP E).

(** The processor call of the loop body, with [splitted] set to null
    before it. *)
Definition msg_process (E : RecvEnv) (conn : Conn E) (skb : Skb E)
    : Conn E * Z * option (Skb E) :=
  if (TFW_CONN_PROTO E conn =? TFW_FSM_WS E)
     || (TFW_CONN_PROTO E conn =? TFW_FSM_WSS E)
  then let '(conn', r) := tfw_ws_msg_process E conn skb in (conn', r, None)
  else tfw_http_msg_process E conn skb.

(** The [for] loop over the chain: [chain] is the current buffer followed
    by the buffers its [next] pointers lead to. The result is the state of
    the connection, the last value of [r] and what happened to the buffers,
    in order; [None] is running out of [fuel]. *)
Fixpoint recv_loop (E : RecvEnv) (fuel : nat) (conn : Conn E) (r : Z)
    (chain : list (Skb E)) : option (Conn E * Z * list (SkbEvent E)) :=
  match chain with
  | [] => Some (conn, r, [])
  | skb :: next =>
      match fuel with
      | O => None
      | S fuel' =>
          if recv_continues E r then
            let '(conn', r', splitted) := msg_process E conn skb in
            let queued := if r' =? T_DROP E then splitted else None in
            let next' :=
              match queued with Some s => s :: next | None => next end in
            match recv_loop E fuel' conn' r' next' with
            | Some (c, rf, t) => Some (c, rf, Processed skb r' queued :: t)
            | None => None
            end
          else
            match recv_loop E fuel' conn r next with
            | Some (c, rf, t) => Some (c, rf, Freed skb :: t)
            | None => None
            end
      end
  end.

(** [tfw_connection_recv(conn, skb)], [rest] being the chain behind
    [skb]: the buffers its [next] pointers lead to, up to the last one,
    behind which the code cuts the chain through [skb->prev]. When receiving
    is stopped only [skb] itself is freed. *)
Definition tfw_connection_recv (E : RecvEnv) (fuel : nat) (conn : Conn E)
    (skb : Skb E) (rest : list (Skb E))
    : option (Conn E * list (SkbEvent E) * Kernel Z) :=
  if tfw_connection_stop_rcv E conn then Some (conn, [Freed skb], Done 0)
  else
    match recv_loop E fuel conn (T_OK E) (skb :: rest) with
    | None => None
    | Some (conn', r, t) =>
        Some (conn', t,
              if r =? T_BLOCK E then Bug
              else Done (if (r <=? T_BAD E) || (r =? T_OK E) then r
                         else T_BAD E))
    end.

(** * Vocabulary of the statements *)

(** ** Frames for the test vectors *)

(** Modelled from the spec: the producer's encoder, which is kernel code
    outside the sources at hand. A frame is the packed header of
    [spec_layout] followed by the body. *)
Definition encode_header (type mask ts : Z) : list byte :=
  le_split 1 type ++ le_split 2 mask ++ le_split 8 ts.

Definition span_size (span : list byte) : Z := Z.of_nat (List.length span).

Definition empty_client : TfwClickhouse :=
  {| ch_block := make_block; ch_committed := [] |}.

(** Minimal ACCESS event: mask 0b0000000001, timestamp 1, body of sixteen
    0xFE bytes. *)
Definition minimal_access : list byte :=
  encode_header 1 1 1 ++ repeat Byte.xfe 16.

(** ** The producer's encoding of an ACCESS event *)

(** The values of one event, as the producer has them. *)
Record AccessEvent := {
  ev_timestamp : Z;
  ev_address : list byte;
  ev_method : Z;
  ev_version : Z;
  ev_status : Z;
  ev_response_content_length : Z;
  ev_response_time : Z;
  ev_vhost : list byte;
  ev_uri : list byte;
  ev_referer : list byte;
  ev_user_agent : list byte
}.

(** Every value fits its encoding. *)
Definition valid_event (e : AccessEvent) : Prop :=
  0 <= ev_timestamp e < 2 ^ 64 /\
  List.length (ev_address e) = 16%nat /\
  0 <= ev_method e < 2 ^ 8 /\
  0 <= ev_version e < 2 ^ 8 /\
  0 <= ev_status e < 2 ^ 16 /\
  0 <= ev_response_content_length e < 2 ^ 32 /\
  0 <= ev_response_time e < 2 ^ 32 /\
  Z.of_nat (List.length (ev_vhost e)) <= 65535 /\
  Z.of_nat (List.length (ev_uri e)) <= 65535 /\
  Z.of_nat (List.length (ev_referer e)) <= 65535 /\
  Z.of_nat (List.length (ev_user_agent e)) <= 65535.

Definition field_value (e : AccessEvent) (f : TfwBinLogFields) : Value :=
  match f with
  | TFW_MMAP_LOG_ADDR => VIPv6 (ev_address e)
  | TFW_MMAP_LOG_METHOD => VUInt (ev_method e)
  | TFW_MMAP_LOG_VERSION => VUInt (ev_version e)
  | TFW_MMAP_LOG_STATUS => VUInt (ev_status e)
  | TFW_MMAP_LOG_RESP_CONT_LEN => VUInt (ev_response_content_length e)
  | TFW_MMAP_LOG_RESP_TIME => VUInt (ev_response_time e)
  | TFW_MMAP_LOG_VHOST => VString (ev_vhost e)
  | TFW_MMAP_LOG_URI => VString (ev_uri e)
  | TFW_MMAP_LOG_REFERER => VString (ev_referer e)
  | TFW_MMAP_LOG_USER_AGENT => VString (ev_user_agent e)
  end.

(** Modelled from the spec: the encoding of one field in the body of a
    frame: raw bytes for the address, little-endian integers of the width
    of the field, and a two-byte little-endian length before the bytes of a
    string. *)
Definition encode_value (f : TfwBinLogFields) (v : Value) : list byte :=
  match v with
  | VUInt z => le_split (sizeof_val f) z
  | VIPv6 a => a
  | VString s => le_split 2 (Z.of_nat (List.length s)) ++ s
  end.

(** Membership of a field in the field set given as a mask. *)
Definition present (mask : Z) (f : TfwBinLogFields) : bool :=
  Z.testbit mask (Z.of_nat (field_ord f)).

Definition encode_field (mask : Z) (e : AccessEvent) (f : TfwBinLogFields)
    : list byte :=
  if present mask f then encode_value f (field_value e f) else [].

Fixpoint encode_body (mask : Z) (e : AccessEvent) (fs : list TfwBinLogFields)
    : list byte :=
  match fs with
  | [] => []
  | f :: fs' => encode_field mask e f ++ encode_body mask e fs'
  end.

(** Modelled from the spec: an ACCESS frame for the field set [mask]: the
    header, then the fields of the set in ascending ordinal order. *)
Definition encode_access (mask : Z) (e : AccessEvent) : list byte :=
  encode_header 1 mask (ev_timestamp e) ++ encode_body mask e all_fields.

(** The zero value of the column of a field. *)
Definition absent_value (f : TfwBinLogFields) : Value :=
  if is_string_field f then VString [] else zero_value f.

(** What the row of the event holds for field [f]. *)
Definition decoded_value (mask : Z) (e : AccessEvent) (f : TfwBinLogFields)
    : Value :=
  if present mask f then field_value e f else absent_value f.

(** The block with one more row, [vs] giving the value of each column. *)
Definition append_row (block : Block) (vs : list Value) : Block :=
  map (fun '(c, v) => col_append v c) (combine block vs).

(** The row an event decodes to. *)
Definition event_row (mask : Z) (e : AccessEvent) : list Value :=
  VUInt (ev_timestamp e) :: map (decoded_value mask e) all_fields.

(** ** Room for the bounds checks *)

(** The bounds check of the iteration for field [f] passes on the encoding
    of the event when [size] bytes are left: the encoding of the field fits,
    and a field of fixed length, in the mask or not, finds its length. *)
Definition room (mask : Z) (e : AccessEvent) (f : TfwBinLogFields)
    (size : Z) : bool :=
  (Z.of_nat (List.length (encode_field mask e f)) <=? size)
  && (is_string_field f || (tfw_mmap_log_field_len f <=? size)).

(** The checks pass for each of the fields [fs] in turn, [size] bytes being
    left before the first of them. *)
Fixpoint body_room (mask : Z) (e : AccessEvent) (fs : list TfwBinLogFields)
    (size : Z) : bool :=
  match fs with
  | [] => true
  | f :: fs' =>
      room mask e f size
      && body_room mask e fs'
           (size - Z.of_nat (List.length (encode_field mask e f)))
  end.

(** The field set has all the fields of fixed length. *)
Definition fixed_fields_present (mask : Z) : Prop :=
  forall f, is_string_field f = false -> present mask f = true.

(** ** Spans of encoded frames *)

(** The span that holds the frames of the events [evs], each given with its
    field set, one after the other. *)
Fixpoint encode_span (evs : list (Z * AccessEvent)) : list byte :=
  match evs with
  | [] => []
  | (mask, e) :: evs' => encode_access mask e ++ encode_span evs'
  end.

(** The block with the rows of the events [evs] appended in order. *)
Definition append_rows (block : Block) (evs : list (Z * AccessEvent)) : Block :=
  fold_left (fun b me => append_row b (event_row (fst me) (snd me))) evs block.

(** A frame that decodes wherever it stands in a span: its values fit their
    encodings, its field set fits the mask of the header and has the six
    fields of fixed length. *)
Definition valid_frame (me : Z * AccessEvent) : Prop :=
  valid_event (snd me) /\ 0 <= fst me < 2 ^ 16 /\ fixed_fields_present (fst me).

(** ** The same header with another mask *)

(** The layout [L] with the field mask read by [fields] instead. *)
Definition with_fields (L : TfwBinLogEvent) (fields : list byte -> Z)
    : TfwBinLogEvent :=
  {| sizeof_TfwBinLogEvent := sizeof_TfwBinLogEvent L;
     sizeof_TfwBinLogEvent_range := sizeof_TfwBinLogEvent_range L;
     event_type := event_type L;
     event_fields := fields;
     event_timestamp := event_timestamp L;
     TFW_MMAP_LOG_TYPE_ACCESS := TFW_MMAP_LOG_TYPE_ACCESS L;
     TFW_MMAP_LOG_TYPE_DROPPED := TFW_MMAP_LOG_TYPE_DROPPED L;
     TFW_MMAP_LOG_TYPE_distinct := TFW_MMAP_LOG_TYPE_distinct L |}.

(** ** Events for the test vectors *)

(** The event of the minimal ACCESS frame. *)
Definition minimal_event : AccessEvent :=
  {| ev_timestamp := 1; ev_address := repeat Byte.xfe 16;
     ev_method := 0; ev_version := 0; ev_status := 0;
     ev_response_content_length := 0; ev_response_time := 0;
     ev_vhost := []; ev_uri := []; ev_referer := []; ev_user_agent := [] |}.

(** The event of the full ACCESS frame. *)
Definition full_event : AccessEvent :=
  {| ev_timestamp := 7; ev_address := repeat Byte.x0a 16;
     ev_method := 1; ev_version := 2; ev_status := 200;
     ev_response_content_length := 1234; ev_response_time := 56;
     ev_vhost := [Byte.x68]; ev_uri := [Byte.x2f]; ev_referer := [];
     ev_user_agent := [Byte.x78] |}.

(** An event sent with the six fixed fields only. *)
Definition fixed_only_event : AccessEvent :=
  {| ev_timestamp := 8; ev_address := repeat Byte.x01 16;
     ev_method := 3; ev_version := 1; ev_status := 404;
     ev_response_content_length := 0; ev_response_time := 9;
     ev_vhost := []; ev_uri := []; ev_referer := []; ev_user_agent := [] |}.

Definition two_frames : list (Z * AccessEvent) :=
  [(1023, full_event); (63, fixed_only_event)].

(** ** Events of a chain *)

(** The buffer was freed, not processed. *)
Definition is_freed {E : RecvEnv} (ev : SkbEvent E) : Prop :=
  match ev with Freed _ => True | Processed _ _ _ => False end.

(** The rounds of the loop of [tfw_connection_recv] that call a processor,
    [n] of them at most, from the locals [conn], [r] and the chain [chain]:
    the result is where the loop then is, that is the connection, [r] and
    the chain that is left, and what happened in these rounds. The rounds
    end before [n] when the chain is used up or [r] is an error. *)
Fixpoint rounds (E : RecvEnv) (n : nat) (conn : Conn E) (r : Z)
    (chain : list (Skb E)) : Conn E * Z * list (Skb E) * list (SkbEvent E) :=
  match n, chain with
  | S n', skb :: next =>
      if recv_continues E r then
        let '(conn', r', splitted) := msg_process E conn skb in
        let queued := if r' =? T_DROP E then splitted else None in
        let next' :=
          match queued with Some s => s :: next | None => next end in
        let '(c, rf, behind, t) := rounds E n' conn' r' next' in
        (c, rf, behind, Processed skb r' queued :: t)
      else (conn, r, chain, [])
  | _, _ => (conn, r, chain, [])
  end.

(** ** Test vectors for connection management *)

(** A table of four slots, the slot of a type being its two low bits. *)
Definition four_slots : HooksEnv :=
  {| Hooks := nat;
     TFW_CONN_MAX_PROTOS := 4;
     TFW_CONN_TYPE2IDX := fun type => Z.to_nat (Z.land type 3) |}.

(** Buffers are numbers and the state of a connection is not looked at.
    The protocol is HTTP; the processor fails with [T_BAD] on buffer 2 and
    never splits. The values of the codes are samples. *)
Definition sample_recv : RecvEnv :=
  {| Skb := nat;
     Conn := unit;
     T_OK := 0;
     T_POSTPONE := 1;
     T_DROP := -2;
     T_BAD := -3;
     T_BLOCK := -4;
     TFW_FSM_WS := 1;
     TFW_FSM_WSS := 2;
     TFW_CONN_PROTO := fun _ => 0;
     tfw_connection_stop_rcv := fun _ => false;
     tfw_ws_msg_process := fun c _ => (c, 0);
     tfw_http_msg_process :=
       fun c skb => (c, if (skb =? 2)%nat then -3 else 0, None) |}.

(** The same, with an HTTP processor that drops buffer 1 and hands back
    buffer 10, split off it. *)
Definition splitting_recv : RecvEnv :=
  {| Skb := nat;
     Conn := unit;
     T_OK := 0;
     T_POSTPONE := 1;
     T_DROP := -2;
     T_BAD := -3;
     T_BLOCK := -4;
     TFW_FSM_WS := 1;
     TFW_FSM_WSS := 2;
     TFW_CONN_PROTO := fun _ => 0;
     tfw_connection_stop_rcv := fun _ => false;
     tfw_ws_msg_process := fun c _ => (c, 0);
     tfw_http_msg_process :=
       fun c skb => if (skb =? 1)%nat then (c, -2, Some 10%nat)
                    else (c, 0, None) |}.

(** What happens to the chain 1, 2 with [splitting_recv]. *)
Definition split_trace : list (SkbEvent splitting_recv) :=
  [@Processed splitting_recv 1%nat (-2) (Some 10%nat);
   @Processed splitting_recv 10%nat 0 None;
   @Processed splitting_recv 2%nat 0 None].

(** What happens to the chain 1, 2, 3 with [sample_recv]. *)
Definition sample_trace : list (SkbEvent sample_recv) :=
  [@Processed sample_recv 1%nat 0 None; @Processed sample_recv 2%nat (-3) None;
   @Freed sample_recv 3%nat].

(** ** Reads inside a span *)

(** A read of [len] bytes at offset [off] stays inside a span of [size]
    bytes. *)
Definition in_span (size : Z) (rd : Z * Z) : Prop :=
  0 <= fst rd /\ 0 <= snd rd /\ fst rd + snd rd <= size.

(** The locals of the field loop are consistent with a span of [size]
    bytes: the cursor and the bytes left add up to the span, and every read
    so far was inside it. *)
Definition cursor_in_span (size : Z) (c : Cursor) : Prop :=
  0 <= cur_p c /\ 0 <= cur_size c /\ cur_p c + cur_size c = size /\
  Forall (in_span size) (cur_reads c).

(** ** Column lengths *)

(** [bump k ls] adds one to the entry of index [k]. *)
Fixpoint bump (k : nat) (ls : list nat) : list nat :=
  match ls, k with
  | [], _ => []
  | n :: rest, O => S n :: rest
  | n :: rest, S k' => n :: bump k' rest
  end.

(** A block is well formed when it has the columns of [make_block]. *)
Definition well_formed (block : Block) : Prop :=
  schema block = schema make_block.

(** ** Aligned and extended blocks *)

(** Every column of the block has [n] rows. *)
Definition aligned (n : nat) (block : Block) : Prop :=
  well_formed block /\ col_lengths block = repeat n 11.

(** [block'] has the columns of [block], each with the rows it had and
    possibly more after them. *)
Definition extends (block block' : Block) : Prop :=
  Forall2 (fun c c' =>
             col_name c' = col_name c /\ col_code c' = col_code c /\
             exists more, col_rows c' = col_rows c ++ more)
          block block'.

(** ** Bytes taken by a field *)

(** Length of the encoding of field [f] when it starts at offset [off]:
    the fixed length for the ordinals 0-5, the two-byte prefix plus the
    value of the prefix for the strings. *)
Definition encoded_len (data : list byte) (f : TfwBinLogFields) (off : Z) : Z :=
  if is_string_field f then 2 + read_uint data off 2
  else tfw_mmap_log_field_len f.

(** Bytes that field [f] takes in the body: its encoded length when the
    mask has it, nothing otherwise. *)
Definition taken (L : TfwBinLogEvent) (data : list byte)
    (f : TfwBinLogFields) (off : Z) : Z :=
  if TFW_MMAP_LOG_FIELD_IS_SET L data (field_ord f) then encoded_len data f off
  else 0.

(** ** The field loop, seen from outside *)

(** The loop without its return value: [inl] when it runs through, [inr]
    when an iteration returns -1. *)
Fixpoint fields_run (L : TfwBinLogEvent) (data : list byte)
    (cs : list nat) (c : Cursor) : Cursor + Cursor :=
  match cs with
  | [] => inl c
  | i :: cs' =>
      match field_step L data i c with
      | inl c' => fields_run L data cs' c'
      | inr c' => inr c'
      end
  end.

(** Bytes the fields [fs] take in a body that starts at offset [off]. *)
Fixpoint body_len (L : TfwBinLogEvent) (data : list byte)
    (fs : list TfwBinLogFields) (off : Z) : Z :=
  match fs with
  | [] => 0
  | f :: fs' =>
      let n := taken L data f off in
      n + body_len L data fs' (off + n)
  end.

(** Column lengths after one append for each of the fields [fs]. *)
Definition bump_fields (fs : list TfwBinLogFields) (ls : list nat) : list nat :=
  fold_left (fun l f => bump (S (field_ord f)) l) fs ls.

(** ** The decoder as a whole *)

(** The locals of [read_access_log_event] when the field loop starts. *)
Definition start_cursor (L : TfwBinLogEvent) (data : list byte) (size : Z)
    (block : Block) : Cursor :=
  {| cur_p := sizeof_TfwBinLogEvent L;
     cur_size := to_int (size - sizeof_TfwBinLogEvent L);
     cur_block := Append 0 (VUInt (event_timestamp L data)) block;
     cur_reads := [(0, sizeof_TfwBinLogEvent L)] |}.

(** Bytes an ACCESS event takes: the header and the fields its mask has. *)
Definition event_len (L : TfwBinLogEvent) (data : list byte) : Z :=
  sizeof_TfwBinLogEvent L
  + body_len L data all_fields (sizeof_TfwBinLogEvent L).

(** ** Test vectors for the decoder *)

(** An ACCESS frame cut in the middle of its address: the header of the
    minimal event and eight of the sixteen address bytes. *)
Definition truncated_access : list byte :=
  encode_header 1 1 1 ++ repeat Byte.xfe 8.

(** An ACCESS frame whose mask announces the six fixed fields and the
    vhost string, in a span that ends right after the fixed fields. *)
Definition prefix_at_end : list byte :=
  encode_header 1 127 1 ++ repeat Byte.x00 28.

(** Block with one row per column. *)
Definition row (ts addr method version status len time
                vhost uri referer agent : Value) : Block :=
  append_row make_block
    [ts; addr; method; version; status; len; time;
     vhost; uri; referer; agent].

(** ** Frames decoded from a span *)

(** The rounds of the loop of [callback] that go round: ACCESS events that
    decode and leave bytes behind them. [decoded L n data size block]
    follows [n] such rounds at most, from the span at [data] with [size]
    bytes and the block [block], and gives the span that is left and the
    block with the rows of these events. *)
Fixpoint decoded (L : TfwBinLogEvent) (n : nat) (data : list byte) (size : Z)
    (block : Block) : list byte * Z * Block :=
  match n with
  | O => (data, size, block)
  | S n' =>
      if (sizeof_TfwBinLogEvent L <=? size)
         && (event_type L data =? TFW_MMAP_LOG_TYPE_ACCESS L)
      then
        let '(r, block', _) := read_access_log_event L data size block in
        if (0 <=? r) && (size - r >? 0)
        then decoded L n' (skipn (Z.to_nat r) data) (size - r) block'
        else (data, size, block)
      else (data, size, block)
  end.

(** The frame at [data] drains the span: it is an ACCESS event that decodes
    and leaves no byte behind it. The result is the block with its row. *)
Definition drains (L : TfwBinLogEvent) (data : list byte) (size : Z)
    (block : Block) : option Block :=
  if (sizeof_TfwBinLogEvent L <=? size)
     && (event_type L data =? TFW_MMAP_LOG_TYPE_ACCESS L)
  then
    let '(r, block', _) := read_access_log_event L data size block in
    if (0 <=? r) && negb (size - r >? 0) then Some block' else None
  else None.

(** The span is drained by ACCESS events: [n] of them leave bytes behind
    them and the next one drains it. The result is the block with the rows
    of them all. *)
Definition drained (L : TfwBinLogEvent) (n : nat) (data : list byte)
    (size : Z) (block : Block) : option Block :=
  let '(data', size', block') := decoded L n data size block in
  drains L data' size' block'.

(** ** Test vectors for the span walker *)

(** DROPPED frame with the count 42, followed by a whole ACCESS event. *)
Definition dropped_then_access : list byte :=
  encode_header 2 0 0 ++ le_split 8 42 ++ minimal_access ++ repeat Byte.x00 4.

(** A decodable ACCESS event followed by a frame of the unknown type 99. *)
Definition access_then_unknown : list byte :=
  minimal_access ++ encode_header 99 0 0.

(** Full ACCESS event: every field present, strings "h", "/", "" and "x". *)
Definition full_access : list byte :=
  encode_header 1 1023 7
  ++ repeat Byte.x0a 16                (* address *)
  ++ [Byte.x01]                        (* method *)
  ++ [Byte.x02]                        (* version *)
  ++ le_split 2 200                    (* status *)
  ++ le_split 4 1234                   (* response_content_length *)
  ++ le_split 4 56                     (* response_time *)
  ++ le_split 2 1 ++ [Byte.x68]        (* vhost "h" *)
  ++ le_split 2 1 ++ [Byte.x2f]        (* uri "/" *)
  ++ le_split 2 0                      (* referer "" *)
  ++ le_split 2 1 ++ [Byte.x78].       (* user_agent "x" *)

Definition full_access_row : Block :=
  row (VUInt 7) (VIPv6 (repeat Byte.x0a 16)) (VUInt 1) (VUInt 2)
      (VUInt 200) (VUInt 1234) (VUInt 56)
      (VString [Byte.x68]) (VString [Byte.x2f]) (VString [])
      (VString [Byte.x78]).

(** ** Test vectors for the supervisor *)

Definition open_ok : OpenResult := {| open_ret := 3; open_errno := 0 |}.

(** ** Traces of the supervisor *)


(** The workers of a session are started: one per CPU, on the descriptor
    that [open] returned. *)
Definition spawns (cpu_cnt : nat) (host : string) (r : OpenResult)
    : list Effect :=
  map (fun i => Spawn i (open_ret r) host) (seq 0 cpu_cnt).


(** * Properties *)

(** ** Integers and raw reads *)

Lemma to_int_small (z : Z) : - 2 ^ 31 <= z < 2 ^ 31 -> to_int z = z.
Proof.
  intros Hz. unfold to_int.
  rewrite Z.mod_small by lia. lia.
Qed.

Lemma length_bytes_at (data : list byte) (off : Z) (n : nat) :
  (List.length (bytes_at data off n) <= n)%nat.
Proof. unfold bytes_at. rewrite length_firstn. apply Nat.le_min_l. Qed.

Lemma read_uint_bound (data : list byte) (off : Z) (n : nat) :
  0 <= read_uint data off n < 2 ^ (8 * Z.of_nat n).
Proof.
  unfold read_uint.
  pose proof (le_combine_bound (bytes_at data off n)) as Hb.
  pose proof (length_bytes_at data off n) as Hl.
  split; [lia|].
  eapply Z.lt_le_trans; [apply Hb|].
  apply Z.pow_le_mono_r; lia.
Qed.

Lemma read_uint16_bound (data : list byte) (off : Z) :
  0 <= read_uint data off 2 <= 65535.
Proof.
  pose proof (read_uint_bound data off 2) as H.
  change (2 ^ (8 * Z.of_nat 2)) with 65536 in H. lia.
Qed.

(** ** Appending to a block *)

Lemma col_lengths_Append (k : nat) (v : Value) (block : Block) :
  col_lengths (Append k v block) = bump k (col_lengths block).
Proof.
  revert k; induction block as [|c rest IH]; intros [|k]; simpl; trivial.
  - rewrite length_app; simpl. now rewrite Nat.add_1_r.
  - unfold col_lengths in IH. now rewrite IH.
Qed.

Lemma schema_Append (k : nat) (v : Value) (block : Block) :
  schema (Append k v block) = schema block.
Proof.
  revert k; induction block as [|c rest IH]; intros [|k]; simpl; trivial.
  unfold schema in IH. now rewrite IH.
Qed.

Lemma length_bump (k : nat) (ls : list nat) :
  List.length (bump k ls) = List.length ls.
Proof.
  revert k; induction ls as [|n rest IH]; intros [|k]; simpl; auto.
Qed.

Lemma well_formed_length (block : Block) :
  well_formed block -> List.length (col_lengths block) = 11%nat.
Proof.
  unfold well_formed, col_lengths, schema. intros H.
  rewrite length_map. rewrite <- (length_map (fun c => (col_name c, col_code c))).
  now rewrite H.
Qed.

(** ** One iteration of the field loop *)

Lemma field_of_int_ord (f : TfwBinLogFields) :
  field_of_int (field_ord f) = Some f.
Proof. now destruct f. Qed.

Lemma encoded_len_bound (data : list byte) (f : TfwBinLogFields) (off : Z) :
  0 <= encoded_len data f off <= 65537.
Proof.
  unfold encoded_len.
  pose proof (read_uint16_bound data off).
  destruct f; cbn [is_string_field tfw_mmap_log_field_len]; lia.
Qed.

Lemma taken_bound (L : TfwBinLogEvent) (data : list byte)
    (f : TfwBinLogFields) (off : Z) :
  0 <= taken L data f off <= 65537.
Proof.
  unfold taken. pose proof (encoded_len_bound data f off).
  destruct (TFW_MMAP_LOG_FIELD_IS_SET L data (field_ord f)); lia.
Qed.

(** An iteration that goes on has appended one value to the column of the
    field and moved the cursor by the bytes the field takes. *)
Lemma field_step_inl (L : TfwBinLogEvent) (data : list byte)
    (f : TfwBinLogFields) (c c' : Cursor) :
  field_step L data (field_ord f) c = inl c' ->
  (exists v, cur_block c' = Append (S (field_ord f)) v (cur_block c)) /\
  cur_p c' = cur_p c + taken L data f (cur_p c) /\
  cur_size c' = cur_size c - taken L data f (cur_p c).
Proof.
  unfold field_step, taken, encoded_len.
  rewrite field_of_int_ord.
  destruct (is_string_field f) eqn:Hs.
  - destruct (TFW_MMAP_LOG_FIELD_IS_SET L data (field_ord f)); cbn [negb].
    + destruct (read_uint data (cur_p c) 2 + 2 >? cur_size c); [discriminate|].
      intros [= <-]; cbn [cur_block cur_p cur_size].
      split; [eexists; reflexivity|split; lia].
    + intros [= <-]; cbn [cur_block cur_p cur_size].
      split; [eexists; reflexivity|split; lia].
  - destruct (tfw_mmap_log_field_len f >? cur_size c); [discriminate|].
    destruct (TFW_MMAP_LOG_FIELD_IS_SET L data (field_ord f));
      intros [= <-]; cbn [cur_block cur_p cur_size];
      (split; [eexists; reflexivity|split; lia]).
Qed.

(** An iteration that returns -1 has appended nothing. *)
Lemma field_step_inr (L : TfwBinLogEvent) (data : list byte)
    (i : nat) (c c' : Cursor) :
  field_step L data i c = inr c' -> cur_block c' = cur_block c.
Proof.
  unfold field_step.
  destruct (field_of_int i) as [f|]; [|now intros [= <-]].
  destruct (is_string_field f).
  - destruct (TFW_MMAP_LOG_FIELD_IS_SET L data i); simpl; [|discriminate].
    destruct (read_uint data (cur_p c) 2 + 2 >? cur_size c); [|discriminate].
    now intros [= <-].
  - destruct (tfw_mmap_log_field_len f >? cur_size c); [now intros [= <-]|].
    destruct (TFW_MMAP_LOG_FIELD_IS_SET L data i); discriminate.
Qed.

(** ** The field loop *)

Lemma fields_loop_run (L : TfwBinLogEvent) (data : list byte)
    (cs : list nat) (c : Cursor) :
  fields_loop L data cs c =
  match fields_run L data cs c with
  | inl c' => (to_int (cur_p c'), c')
  | inr c' => (-1, c')
  end.
Proof.
  revert c; induction cs as [|i cs IH]; intros c; simpl; trivial.
  destruct (field_step L data i c); auto.
Qed.

Lemma body_len_bound (L : TfwBinLogEvent) (data : list byte)
    (fs : list TfwBinLogFields) (off : Z) :
  0 <= body_len L data fs off <= 65537 * Z.of_nat (List.length fs).
Proof.
  revert off; induction fs as [|f fs IH]; intros off.
  - simpl; lia.
  - cbn [body_len List.length].
    pose proof (taken_bound L data f off).
    specialize (IH (off + taken L data f off)). lia.
Qed.

Lemma fields_run_inl (L : TfwBinLogEvent) (data : list byte)
    (fs : list TfwBinLogFields) (c c' : Cursor) :
  fields_run L data (map field_ord fs) c = inl c' ->
  col_lengths (cur_block c') = bump_fields fs (col_lengths (cur_block c)) /\
  schema (cur_block c') = schema (cur_block c) /\
  cur_p c' = cur_p c + body_len L data fs (cur_p c).
Proof.
  revert c; induction fs as [|f fs IH]; intros c; simpl.
  - intros [= <-]. repeat split; lia.
  - destruct (field_step L data (field_ord f) c) as [c1|c1] eqn:Hstep;
      [|discriminate].
    intros Hrun. apply IH in Hrun as (Hlen & Hsch & Hp).
    apply field_step_inl in Hstep as ([v Hv] & Hp1 & _).
    rewrite Hlen, Hsch, Hp, Hv, col_lengths_Append, schema_Append, Hp1.
    repeat split; lia.
Qed.

Lemma fields_run_inr (L : TfwBinLogEvent) (data : list byte)
    (fs : list TfwBinLogFields) (c c' : Cursor) :
  fields_run L data (map field_ord fs) c = inr c' ->
  exists k, (k < List.length fs)%nat /\
    col_lengths (cur_block c') =
      bump_fields (firstn k fs) (col_lengths (cur_block c)).
Proof.
  revert c; induction fs as [|f fs IH]; intros c; simpl; [discriminate|].
  destruct (field_step L data (field_ord f) c) as [c1|c1] eqn:Hstep.
  - intros Hrun. apply IH in Hrun as (k & Hk & Hlen).
    apply field_step_inl in Hstep as ([v Hv] & _).
    exists (S k). split; [lia|].
    rewrite Hlen, Hv, col_lengths_Append. reflexivity.
  - intros [= <-]. apply field_step_inr in Hstep.
    exists 0%nat. split; [lia|]. now rewrite Hstep.
Qed.

Lemma field_counters_fields : field_counters = map field_ord all_fields.
Proof. reflexivity. Qed.

(** ** The decoder as a whole: general facts *)

Lemma read_access_log_event_run (L : TfwBinLogEvent) (data : list byte)
    (size : Z) (block : Block) :
  read_access_log_event L data size block =
  match fields_run L data field_counters (start_cursor L data size block) with
  | inl c' => (to_int (cur_p c'), cur_block c', cur_reads c')
  | inr c' => (-1, cur_block c', cur_reads c')
  end.
Proof.
  unfold read_access_log_event.
  fold (start_cursor L data size block).
  rewrite fields_loop_run.
  now destruct (fields_run L data field_counters (start_cursor L data size block)).
Qed.

Lemma event_len_bound (L : TfwBinLogEvent) (data : list byte) :
  sizeof_TfwBinLogEvent L <= event_len L data < 2 ^ 31.
Proof.
  unfold event_len.
  pose proof (sizeof_TfwBinLogEvent_range L).
  pose proof (body_len_bound L data all_fields (sizeof_TfwBinLogEvent L)) as Hb.
  change (Z.of_nat (List.length all_fields)) with 10 in Hb.
  change (2 ^ 31) with 2147483648. lia.
Qed.

(** The two ways the decoder ends: it returns -1 after the timestamp and
    the first [k] fields were appended, or it returns the length of the
    event after all ten fields were appended. *)
Lemma read_access_log_event_cases (L : TfwBinLogEvent) (data : list byte)
    (size : Z) (block : Block) :
  let '(r, block', _) := read_access_log_event L data size block in
  (r = -1 /\ exists k, (k < 10)%nat /\
     col_lengths block' =
       bump_fields (firstn k all_fields) (bump 0 (col_lengths block)))
  \/
  (r = event_len L data /\
   col_lengths block' = bump_fields all_fields (bump 0 (col_lengths block)) /\
   schema block' = schema block).
Proof.
  rewrite read_access_log_event_run, field_counters_fields.
  destruct (fields_run L data (map field_ord all_fields)
              (start_cursor L data size block)) as [c'|c'] eqn:Hrun.
  - right. apply fields_run_inl in Hrun as (Hlen & Hsch & Hp).
    cbn [start_cursor cur_block cur_p] in Hlen, Hsch, Hp.
    rewrite col_lengths_Append in Hlen. rewrite schema_Append in Hsch.
    fold (event_len L data) in Hp.
    pose proof (event_len_bound L data).
    pose proof (sizeof_TfwBinLogEvent_range L).
    rewrite Hp, to_int_small by lia. auto.
  - left. apply fields_run_inr in Hrun as (k & Hk & Hlen).
    cbn [start_cursor cur_block] in Hlen.
    rewrite col_lengths_Append in Hlen.
    split; [reflexivity|]. exists k. split; [exact Hk|exact Hlen].
Qed.

Lemma bump_all (ls : list nat) :
  List.length ls = 11%nat ->
  bump_fields all_fields (bump 0 ls) = map S ls.
Proof.
  intros H.
  do 12 (destruct ls as [|? ls]; try discriminate H).
  reflexivity.
Qed.

Lemma bump_prefix (k : nat) (ls : list nat) :
  List.length ls = 11%nat -> (k < 10)%nat ->
  forall j, (j < 11)%nat ->
    nth j (bump_fields (firstn k all_fields) (bump 0 ls)) 0%nat =
    (nth j ls 0 + if j <=? k then 1 else 0)%nat.
Proof.
  intros H Hk j Hj.
  do 12 (destruct ls as [|? ls]; try discriminate H).
  do 10 (destruct k as [|k]; [
    do 11 (destruct j as [|j]; [cbn; lia|]); lia |]).
  lia.
Qed.

(** A successful decode appends exactly one row: every column of a well
    formed block grows by one and the block stays well formed. *)
Lemma read_access_log_event_success (L : TfwBinLogEvent) (data : list byte)
    (size : Z) (block block' : Block) (r : Z) (reads : ReadLog) :
  well_formed block ->
  read_access_log_event L data size block = (r, block', reads) ->
  0 <= r ->
  r = event_len L data /\
  col_lengths block' = map S (col_lengths block) /\
  well_formed block'.
Proof.
  intros Hwf Hdec Hr.
  pose proof (read_access_log_event_cases L data size block) as Hc.
  rewrite Hdec in Hc.
  destruct Hc as [[Hm _]|(Hlen & Hcols & Hsch)]; [lia|].
  split; [exact Hlen|]. split.
  - rewrite Hcols. apply bump_all. now apply well_formed_length.
  - unfold well_formed in *. congruence.
Qed.

(** ** Decoding what the producer encodes *)

Lemma bytes_at_app (pre x tail : list byte) :
  bytes_at (pre ++ x ++ tail) (Z.of_nat (List.length pre)) (List.length x) = x.
Proof.
  unfold bytes_at.
  rewrite Nat2Z.id, skipn_app, skipn_all, Nat.sub_diag. cbn [skipn app].
  rewrite firstn_app, firstn_all, Nat.sub_diag. cbn [firstn].
  apply app_nil_r.
Qed.

Lemma read_uint_app (pre tail : list byte) (n : nat) (z : Z) :
  0 <= z < 2 ^ (Z.of_nat n * 8) ->
  read_uint (pre ++ le_split n z ++ tail) (Z.of_nat (List.length pre)) n = z.
Proof.
  intros Hz. unfold read_uint.
  rewrite <- (length_le_split n z) at 2.
  rewrite bytes_at_app, le_combine_split. now apply Z.mod_small.
Qed.

Lemma length_encode_header (type mask ts : Z) :
  List.length (encode_header type mask ts) = 11%nat.
Proof. reflexivity. Qed.

(** The header of a frame, read back. *)
Lemma header_of_encoded (mask ts : Z) (body : list byte) :
  0 <= mask < 2 ^ 16 -> 0 <= ts < 2 ^ 64 ->
  let data := encode_header 1 mask ts ++ body in
  event_type spec_layout data = 1 /\
  event_fields spec_layout data = mask /\
  event_timestamp spec_layout data = ts.
Proof.
  intros Hmask Hts data. subst data. unfold encode_header.
  cbn [spec_layout event_type event_fields event_timestamp].
  rewrite <- !app_assoc.
  split; [|split].
  - apply (read_uint_app [] _ 1 1). cbn; lia.
  - apply (read_uint_app (le_split 1 1) _ 2 mask). exact Hmask.
  - rewrite (app_assoc (le_split 1 1)).
    apply (read_uint_app (le_split 1 1 ++ le_split 2 mask) _ 8 ts). exact Hts.
Qed.

Lemma string_reads (pre s tail : list byte) :
  Z.of_nat (List.length s) <= 65535 ->
  let data := pre ++ (le_split 2 (Z.of_nat (List.length s)) ++ s) ++ tail in
  read_uint data (Z.of_nat (List.length pre)) 2 = Z.of_nat (List.length s) /\
  bytes_at data (Z.of_nat (List.length pre) + 2) (List.length s) = s.
Proof.
  intros Hs data. subst data. split.
  - rewrite <- app_assoc. apply read_uint_app.
    change (2 ^ (Z.of_nat 2 * 8)) with 65536. lia.
  - rewrite <- app_assoc, app_assoc.
    replace (Z.of_nat (List.length pre) + 2)
      with (Z.of_nat (List.length (pre ++ le_split 2 (Z.of_nat (List.length s))))).
    + apply bytes_at_app.
    + rewrite length_app, length_le_split. lia.
Qed.

Ltac bounds_check_passes :=
  match goal with
  | |- context [?a >? ?b] =>
      replace (a >? b) with false
        by (symmetry; rewrite Z.gtb_ltb; apply Z.ltb_ge; lia)
  end.

Ltac step_done :=
  eexists; split; [reflexivity|];
  cbn [cur_p cur_size cur_block List.length Z.of_nat];
  rewrite ?length_app, ?length_le_split;
  split; [lia|split; [lia|]].

(** One iteration of the field loop on the encoding of its field. *)
Lemma field_step_encoded (mask : Z) (e : AccessEvent) (f : TfwBinLogFields)
    (pre tail data : list byte) (c : Cursor) :
  data = pre ++ encode_field mask e f ++ tail ->
  event_fields spec_layout data = mask ->
  valid_event e ->
  cur_p c = Z.of_nat (List.length pre) ->
  Z.of_nat (List.length (encode_field mask e f)) + 16 <= cur_size c ->
  exists c',
    field_step spec_layout data (field_ord f) c = inl c' /\
    cur_p c' = cur_p c + Z.of_nat (List.length (encode_field mask e f)) /\
    cur_size c' = cur_size c - Z.of_nat (List.length (encode_field mask e f)) /\
    cur_block c' =
      Append (S (field_ord f)) (decoded_value mask e f) (cur_block c).
Proof.
  intros Hdata Hmask Hvalid Hp Hsize.
  destruct Hvalid as (Hts & Haddr & Hm & Hv & Hst & Hl & Ht & Hvh & Hu & Hr & Ha).
  unfold field_step. rewrite field_of_int_ord.
  unfold TFW_MMAP_LOG_FIELD_IS_SET. rewrite Hmask.
  fold (present mask f).
  unfold encode_field, decoded_value, absent_value in *.
  destruct (present mask f) eqn:Hset.
  - clear Hmask. subst data.
    destruct f;
      cbn [is_string_field tfw_mmap_log_field_len negb field_value
           encode_value sizeof_val int_value] in *;
      rewrite ?length_app, ?length_le_split, ?Haddr in Hsize.
    + (* address *)
      bounds_check_passes. step_done.
      pose proof (bytes_at_app pre (ev_address e) tail) as Hb.
      rewrite Haddr in Hb. now rewrite Hp, Hb.
    + bounds_check_passes. step_done.
      rewrite Hp, read_uint_app; [reflexivity|].
      change (2 ^ (Z.of_nat 1 * 8)) with (2 ^ 8). assumption.
    + bounds_check_passes. step_done.
      rewrite Hp, read_uint_app; [reflexivity|].
      change (2 ^ (Z.of_nat 1 * 8)) with (2 ^ 8). assumption.
    + bounds_check_passes. step_done.
      rewrite Hp, read_uint_app; [reflexivity|].
      change (2 ^ (Z.of_nat 2 * 8)) with (2 ^ 16). assumption.
    + bounds_check_passes. step_done.
      rewrite Hp, read_uint_app; [reflexivity|].
      change (2 ^ (Z.of_nat 4 * 8)) with (2 ^ 32). assumption.
    + bounds_check_passes. step_done.
      rewrite Hp, read_uint_app; [reflexivity|].
      change (2 ^ (Z.of_nat 4 * 8)) with (2 ^ 32). assumption.
    + destruct (string_reads pre _ tail Hvh) as [Hlen Hbytes].
      rewrite Hp, Hlen. bounds_check_passes. step_done.
      now rewrite Nat2Z.id, Hbytes.
    + destruct (string_reads pre _ tail Hu) as [Hlen Hbytes].
      rewrite Hp, Hlen. bounds_check_passes. step_done.
      now rewrite Nat2Z.id, Hbytes.
    + destruct (string_reads pre _ tail Hr) as [Hlen Hbytes].
      rewrite Hp, Hlen. bounds_check_passes. step_done.
      now rewrite Nat2Z.id, Hbytes.
    + destruct (string_reads pre _ tail Ha) as [Hlen Hbytes].
      rewrite Hp, Hlen. bounds_check_passes. step_done.
      now rewrite Nat2Z.id, Hbytes.
  - cbn [List.length Z.of_nat] in Hsize.
    destruct f; cbn [is_string_field tfw_mmap_log_field_len negb];
      try bounds_check_passes; step_done; reflexivity.
Qed.

(** The field loop on the encoding of the fields [fs]. *)
Lemma fields_run_encoded (mask : Z) (e : AccessEvent)
    (fs : list TfwBinLogFields) (pre tail data : list byte) (c : Cursor) :
  data = pre ++ encode_body mask e fs ++ tail ->
  event_fields spec_layout data = mask ->
  valid_event e ->
  cur_p c = Z.of_nat (List.length pre) ->
  Z.of_nat (List.length (encode_body mask e fs)) + 16 <= cur_size c ->
  exists c',
    fields_run spec_layout data (map field_ord fs) c = inl c' /\
    cur_p c' = cur_p c + Z.of_nat (List.length (encode_body mask e fs)) /\
    cur_block c' =
      fold_left (fun b f => Append (S (field_ord f)) (decoded_value mask e f) b)
        fs (cur_block c).
Proof.
  revert pre c; induction fs as [|f fs IH]; intros pre c Hdata Hmask Hvalid Hp Hsize.
  - exists c. cbn. repeat split. lia.
  - cbn [encode_body] in *. rewrite length_app in Hsize.
    destruct (field_step_encoded mask e f pre (encode_body mask e fs ++ tail)
                data c) as (c1 & Hstep & Hp1 & Hsize1 & Hblock1);
      try assumption; [now rewrite Hdata, <- app_assoc|lia|].
    destruct (IH (pre ++ encode_field mask e f) c1)
      as (c' & Hrun & Hp' & Hblock'); try assumption.
    + now rewrite Hdata, <- !app_assoc.
    + rewrite length_app. lia.
    + lia.
    + exists c'. cbn [map fields_run fold_left]. rewrite Hstep.
      split; [exact Hrun|]. split.
      * rewrite length_app. lia.
      * now rewrite Hblock', Hblock1.
Qed.

Lemma append_row_fields (g : TfwBinLogFields -> Value) (v : Value)
    (block : Block) :
  List.length block = 11%nat ->
  fold_left (fun b f => Append (S (field_ord f)) (g f) b) all_fields
    (Append 0 v block)
  = append_row block (v :: map g all_fields).
Proof.
  intros H.
  do 12 (destruct block as [|? block]; try discriminate H).
  reflexivity.
Qed.

Lemma well_formed_columns (block : Block) :
  well_formed block -> List.length block = 11%nat.
Proof.
  intros H. apply well_formed_length in H.
  unfold col_lengths in H. now rewrite length_map in H.
Qed.

(** X2. The round trip, where it holds. For every field set, given as a mask
    of at most 16 bits, and every tuple of values that fit their encodings:
    when at least sixteen more bytes follow the frame in the span, the
    decoder consumes exactly the frame and appends one row that has the
    encoded value in the columns of the fields of the set and the zero value
    of the column in the others. *)
Theorem decode_encoded_access (mask : Z) (e : AccessEvent)
    (rest : list byte) (block : Block) :
  valid_event e ->
  0 <= mask < 2 ^ 16 ->
  well_formed block ->
  (16 <= List.length rest)%nat ->
  span_size (encode_access mask e ++ rest) <= INT_MAX ->
  fst (read_access_log_event spec_layout (encode_access mask e ++ rest)
         (span_size (encode_access mask e ++ rest)) block)
  = (span_size (encode_access mask e), append_row block (event_row mask e)).
Proof.
  intros Hvalid Hmask Hwf Hrest Hmax.
  set (data := encode_access mask e ++ rest) in *.
  assert (Hdata : data = encode_header 1 mask (ev_timestamp e)
                         ++ encode_body mask e all_fields ++ rest)
    by (unfold data, encode_access; now rewrite <- app_assoc).
  destruct (header_of_encoded mask (ev_timestamp e)
              (encode_body mask e all_fields ++ rest) Hmask)
    as (_ & Hfields & Hts); [apply Hvalid|].
  rewrite <- Hdata in Hfields, Hts.
  assert (Hlen : span_size data
                 = 11 + Z.of_nat (List.length (encode_body mask e all_fields))
                   + Z.of_nat (List.length rest)).
  { unfold span_size. rewrite Hdata, !length_app, length_encode_header. lia. }
  unfold INT_MAX in Hmax.
  rewrite read_access_log_event_run, field_counters_fields.
  destruct (fields_run_encoded mask e all_fields
              (encode_header 1 mask (ev_timestamp e)) rest data
              (start_cursor spec_layout data (span_size data) block))
    as (c' & Hrun & Hp & Hblock); try assumption.
  - reflexivity.
  - cbn [start_cursor cur_size spec_layout sizeof_TfwBinLogEvent].
    unfold spec_sizeof. rewrite to_int_small by lia. lia.
  - rewrite Hrun. cbn [fst].
    cbn [start_cursor cur_p cur_block spec_layout sizeof_TfwBinLogEvent] in Hp, Hblock.
    unfold spec_sizeof in Hp.
    rewrite Hp, Hblock, to_int_small by lia.
    f_equal.
    + unfold span_size, encode_access.
      rewrite length_app, length_encode_header. lia.
    + cbn [event_timestamp spec_layout] in *. rewrite Hts.
      apply append_row_fields. now apply well_formed_columns.
Qed.

(** ** Which bytes the decoder reads *)

Lemma field_step_reads (L : TfwBinLogEvent) (data : list byte) (size : Z)
    (f : TfwBinLogFields) (c : Cursor) :
  cursor_in_span size c ->
  match field_step L data (field_ord f) c with
  | inl c' => cursor_in_span size c'
  | inr c' =>
      cur_reads c' = cur_reads c \/
      (is_string_field f = true /\
       cur_reads c' = cur_reads c ++ [(cur_p c, 2)] /\
       cur_size c < read_uint data (cur_p c) 2 + 2)
  end.
Proof.
  intros (Hp & Hsize & Hsum & Hreads).
  unfold field_step. rewrite field_of_int_ord.
  pose proof (read_uint16_bound data (cur_p c)) as Hlen.
  destruct (is_string_field f) eqn:Hstr.
  - destruct (TFW_MMAP_LOG_FIELD_IS_SET L data (field_ord f)); cbn [negb].
    + destruct (Z.gtb_spec (read_uint data (cur_p c) 2 + 2) (cur_size c)).
      * right. cbn. auto.
      * unfold cursor_in_span, in_span; cbn [cur_p cur_size cur_reads].
        repeat split; try lia.
        rewrite !Forall_app. repeat split; try assumption;
          repeat constructor; cbn; lia.
    + unfold cursor_in_span; cbn [cur_p cur_size cur_reads]. auto.
  - assert (Hw : Z.of_nat (sizeof_val f) = tfw_mmap_log_field_len f)
      by (destruct f; try discriminate Hstr; reflexivity).
    assert (Hpos : 0 <= tfw_mmap_log_field_len f) by (destruct f; cbn; lia).
    destruct (Z.gtb_spec (tfw_mmap_log_field_len f) (cur_size c)).
    + now left.
    + destruct (TFW_MMAP_LOG_FIELD_IS_SET L data (field_ord f));
        unfold cursor_in_span, in_span; cbn [cur_p cur_size cur_reads].
      * repeat split; try lia.
        rewrite Forall_app. split; [assumption|].
        repeat constructor; cbn; lia.
      * auto.
Qed.

Lemma fields_run_reads (L : TfwBinLogEvent) (data : list byte) (size : Z)
    (fs : list TfwBinLogFields) (c : Cursor) :
  cursor_in_span size c ->
  match fields_run L data (map field_ord fs) c with
  | inl c' => Forall (in_span size) (cur_reads c')
  | inr c' =>
      exists reads, Forall (in_span size) reads /\
        (cur_reads c' = reads \/
         exists off, 0 <= off <= size /\ cur_reads c' = reads ++ [(off, 2)])
  end.
Proof.
  revert c; induction fs as [|f fs IH]; intros c Hc; cbn [map fields_run].
  - apply Hc.
  - pose proof (field_step_reads L data size f c Hc) as Hstep.
    destruct (field_step L data (field_ord f) c) as [c1|c1].
    + now apply IH.
    + destruct Hc as (Hp & Hsize & Hsum & Hreads).
      exists (cur_reads c). split; [assumption|].
      destruct Hstep as [Hsame|(_ & Hmore & _)]; [now left|right].
      exists (cur_p c). split; [lia|assumption].
Qed.

(** X7. Extent of the reads. On a span that holds at least the header, every
    read of a decode that succeeds lies inside the span. A decode that fails
    has read inside the span too, except that its last read may be the two
    bytes of a string's length prefix, starting at an offset up to the end
    of the span. *)
Theorem read_access_log_event_reads (L : TfwBinLogEvent) (data : list byte)
    (size : Z) (block : Block) :
  sizeof_TfwBinLogEvent L <= size <= INT_MAX ->
  let '(r, _, reads) := read_access_log_event L data size block in
  (0 <= r -> Forall (in_span size) reads) /\
  (r < 0 ->
   exists reads', Forall (in_span size) reads' /\
     (reads = reads' \/
      exists off, 0 <= off <= size /\ reads = reads' ++ [(off, 2)])).
Proof.
  intros Hsize. unfold INT_MAX in Hsize.
  pose proof (sizeof_TfwBinLogEvent_range L) as Hs.
  rewrite read_access_log_event_run, field_counters_fields.
  assert (Hc : cursor_in_span size (start_cursor L data size block)).
  { unfold cursor_in_span, in_span; cbn [start_cursor cur_p cur_size cur_reads].
    rewrite to_int_small by lia.
    repeat split; try lia. repeat constructor; cbn; lia. }
  pose proof (fields_run_reads L data size all_fields _ Hc) as Hrun.
  pose proof (fields_run_inl L data all_fields (start_cursor L data size block))
    as Hinl.
  destruct (fields_run L data (map field_ord all_fields)
              (start_cursor L data size block)) as [c'|c'].
  - split; [auto|]. intros Hneg.
    destruct (Hinl c' eq_refl) as (_ & _ & Hp).
    cbn [start_cursor cur_p] in Hp. fold (event_len L data) in Hp.
    pose proof (event_len_bound L data).
    rewrite Hp, to_int_small in Hneg by lia. lia.
  - split; [lia|auto].
Qed.

(** ** Claims about the decoder *)

(** C1. Decoding an ACCESS event is not atomic with respect to the block.
    Whenever [read_access_log_event] reports failure on a well formed
    block, the values appended before the failing bounds check are still in
    the block: for some [k] below 10 the timestamp column and the columns of
    the first [k] fields are one row longer than before the call and the
    other columns have kept their length. Nothing is truncated back, so the
    columns of the block differ in length after every failed decode. *)
Theorem read_access_log_event_failure_leaves_partial_row
    (L : TfwBinLogEvent) (data : list byte) (size : Z)
    (block block' : Block) (r : Z) (reads : ReadLog) :
  well_formed block ->
  read_access_log_event L data size block = (r, block', reads) ->
  r < 0 ->
  exists k, (k < 10)%nat /\
    forall j, (j < 11)%nat ->
      nth j (col_lengths block') 0%nat =
      (nth j (col_lengths block) 0 + if j <=? k then 1 else 0)%nat.
Proof.
  intros Hwf Hdec Hr.
  pose proof (read_access_log_event_cases L data size block) as Hc.
  rewrite Hdec in Hc.
  destruct Hc as [(_ & k & Hk & Hcols)|(Hlen & _)].
  - exists k. split; [exact Hk|]. intros j Hj. rewrite Hcols.
    apply bump_prefix; auto using well_formed_length.
  - pose proof (event_len_bound L data).
    pose proof (sizeof_TfwBinLogEvent_range L). lia.
Qed.

Lemma read_access_log_event_failure_leaves_partial_row_witness :
  well_formed make_block /\
  fst (fst (read_access_log_event spec_layout truncated_access 19 make_block)) < 0 /\
  col_lengths
    (snd (fst (read_access_log_event spec_layout truncated_access 19 make_block)))
    = [1; 0; 0; 0; 0; 0; 0; 0; 0; 0; 0]%nat /\
  exists k, (k < 10)%nat /\
    forall j, (j < 11)%nat ->
      nth j (col_lengths
               (snd (fst (read_access_log_event spec_layout truncated_access
                            19 make_block)))) 0%nat =
      (nth j (col_lengths make_block) 0 + if j <=? k then 1 else 0)%nat.
Proof.
  split; [reflexivity|]. split; [vm_compute; reflexivity|].
  split; [vm_compute; reflexivity|].
  apply (read_access_log_event_failure_leaves_partial_row
           spec_layout truncated_access 19 make_block _ (-1)
           (snd (read_access_log_event spec_layout truncated_access 19 make_block))).
  - reflexivity.
  - vm_compute; reflexivity.
  - lia.
Defined.

(** C2. The round trip fails on the minimal ACCESS event. In a span that
    holds only the header (type 1, mask 0b0000000001, timestamp 1) and the
    sixteen 0xFE bytes of the address, the decoder appends the timestamp and
    the address and then returns -1 at the bounds check of the absent method
    field, which asks for one more byte; [callback] leaves without
    committing. No row (1, fe:..:fe, 0, ..., empty) is produced. The same
    frame followed by four more bytes decodes to exactly that row. *)
Theorem minimal_access_is_rejected :
  read_access_log_event spec_layout minimal_access
      (span_size minimal_access) make_block
  = (-1,
     Append 1 (VIPv6 (repeat Byte.xfe 16)) (Append 0 (VUInt 1) make_block),
     [(0, 11); (11, 16)])
  /\ (let res := callback spec_layout minimal_access
                   (span_size minimal_access) empty_client in
      res_exit res = ExitDecodeFailed /\
      ch_committed (res_clickhouse res) = [] /\
      col_lengths (ch_block (res_clickhouse res))
        = [1; 1; 0; 0; 0; 0; 0; 0; 0; 0; 0]%nat)
  /\ fst (read_access_log_event spec_layout
            (minimal_access ++ repeat Byte.x00 4)
            (span_size minimal_access + 4) make_block)
     = (27,
        row (VUInt 1) (VIPv6 (repeat Byte.xfe 16)) (VUInt 0) (VUInt 0)
            (VUInt 0) (VUInt 0) (VUInt 0)
            (VString []) (VString []) (VString []) (VString [])).
Proof. repeat split; vm_compute; reflexivity. Qed.

(** C3. The decoder reads past the span. The length prefix of a string
    field is dereferenced before any comparison with the bytes left: on a
    span of 39 bytes whose mask has the six fixed fields and the vhost, the
    fixed fields use up the span and the prefix of the vhost is then read
    at offsets 39 and 40, after which the decoder returns -1. *)
Theorem string_prefix_read_past_span :
  span_size prefix_at_end = 39 /\
  (let '(r, _, reads) :=
     read_access_log_event spec_layout prefix_at_end 39 make_block in
   r = -1 /\
   reads = [(0, 11); (11, 16); (27, 1); (28, 1); (29, 2); (31, 4); (35, 4);
            (39, 2)] /\
   exists off len, In (off, len) reads /\ 0 < len /\ 39 <= off).
Proof.
  split; [reflexivity|]. vm_compute.
  split; [reflexivity|]. split; [reflexivity|].
  exists 39, 2. repeat split; try discriminate.
  do 7 right. left. reflexivity.
Qed.

(** C6. [make_block] returns a block of exactly eleven empty columns, in
    this order: timestamp UInt64, address IPv6, method UInt8, version UInt8,
    status UInt16, response_content_length UInt32, response_time UInt32,
    vhost String, uri String, referer String, user_agent String. *)
Theorem make_block_columns :
  schema make_block =
    [ ("timestamp", Type_.UInt64); ("address", Type_.IPv6);
      ("method", Type_.UInt8); ("version", Type_.UInt8);
      ("status", Type_.UInt16); ("response_content_length", Type_.UInt32);
      ("response_time", Type_.UInt32); ("vhost", Type_.String);
      ("uri", Type_.String); ("referer", Type_.String);
      ("user_agent", Type_.String) ]%string
  /\ List.length make_block = 11%nat
  /\ Forall (fun c => col_rows c = []) make_block.
Proof.
  split; [reflexivity|]. split; [reflexivity|].
  repeat constructor.
Qed.

(** C10. When [read_access_log_event] decodes an event (its result is not
    negative), the result is the size of the header plus the encoded lengths
    of the fields the mask has: 16, 1, 1, 2, 4 and 4 bytes for the ordinals
    0-5, and for the ordinals 6-9 the two bytes of the prefix plus the value
    of the prefix. A field the mask does not have adds nothing. *)
Theorem read_access_log_event_consumed
    (L : TfwBinLogEvent) (data : list byte) (size : Z)
    (block block' : Block) (r : Z) (reads : ReadLog) :
  read_access_log_event L data size block = (r, block', reads) ->
  0 <= r ->
  r = sizeof_TfwBinLogEvent L
      + body_len L data all_fields (sizeof_TfwBinLogEvent L)
  /\ (forall f off,
        taken L data f off =
        if TFW_MMAP_LOG_FIELD_IS_SET L data (field_ord f) then
          match f with
          | TFW_MMAP_LOG_ADDR => 16
          | TFW_MMAP_LOG_METHOD | TFW_MMAP_LOG_VERSION => 1
          | TFW_MMAP_LOG_STATUS => 2
          | TFW_MMAP_LOG_RESP_CONT_LEN | TFW_MMAP_LOG_RESP_TIME => 4
          | _ => 2 + read_uint data off 2
          end
        else 0).
Proof.
  intros Hdec Hr.
  pose proof (read_access_log_event_cases L data size block) as Hc.
  rewrite Hdec in Hc.
  destruct Hc as [[Hm _]|(Hlen & _)]; [lia|].
  split; [exact Hlen|].
  intros f off. unfold taken, encoded_len. now destruct f.
Qed.

Lemma read_access_log_event_consumed_witness :
  let data := minimal_access ++ repeat Byte.x00 4 in
  let res := read_access_log_event spec_layout data 31 make_block in
  fst (fst res) = 27 /\
  27 = sizeof_TfwBinLogEvent spec_layout
       + body_len spec_layout data all_fields (sizeof_TfwBinLogEvent spec_layout).
Proof.
  intros data res. split; [vm_compute; reflexivity|].
  apply (read_access_log_event_consumed spec_layout data 31 make_block
           (snd (fst res)) 27 (snd res)).
  - vm_compute; reflexivity.
  - lia.
Defined.

(** ** Walking a span: general facts *)

(** The decoder either fails with -1 or consumes at least the header. *)
Lemma read_access_log_event_result (L : TfwBinLogEvent) (data : list byte)
    (size : Z) (block : Block) :
  let r := fst (fst (read_access_log_event L data size block)) in
  r = -1 \/ sizeof_TfwBinLogEvent L <= r.
Proof.
  pose proof (read_access_log_event_cases L data size block) as Hc.
  destruct (read_access_log_event L data size block) as [[r b] rd]; simpl.
  destruct Hc as [[Hm _]|(Hlen & _)]; [now left|right].
  pose proof (event_len_bound L data). lia.
Qed.

(** The loop of [callback] never runs out of fuel. *)
Lemma callback_loop_total (L : TfwBinLogEvent) (fuel : nat)
    (data : list byte) (size : Z) (ch : TfwClickhouse) :
  (Z.to_nat size < fuel)%nat ->
  exists res, callback_loop L fuel data size ch = Some res.
Proof.
  revert data size ch.
  induction fuel as [|fuel IH]; intros data size ch Hfuel; [lia|].
  cbn [callback_loop].
  destruct (size <? sizeof_TfwBinLogEvent L) eqn:Hshort; [eauto|].
  destruct (event_type L data =? TFW_MMAP_LOG_TYPE_ACCESS L).
  - pose proof (read_access_log_event_result L data size (ch_block ch)) as Hr.
    destruct (read_access_log_event L data size (ch_block ch)) as [[r b] rd].
    cbn [fst] in Hr.
    destruct (r <? 0) eqn:Hneg; [eauto|].
    destruct (size - r >? 0) eqn:Hmore; [|eauto].
    apply IH.
    pose proof (sizeof_TfwBinLogEvent_range L).
    apply Z.ltb_ge in Hneg. apply Z.ltb_ge in Hshort.
    destruct Hr as [Hr|Hr]; lia.
  - destruct (event_type L data =? TFW_MMAP_LOG_TYPE_DROPPED L); [|eauto].
    destruct (sizeof_u64 >? to_int (size - sizeof_TfwBinLogEvent L)); eauto.
Qed.

Lemma callback_eq (L : TfwBinLogEvent) (data : list byte) (size : Z)
    (ch : TfwClickhouse) :
  callback_loop L (callback_fuel size) data size ch
  = Some (callback L data size ch).
Proof.
  unfold callback.
  destruct (callback_loop_total L (callback_fuel size) data size ch) as [res Hres].
  - unfold callback_fuel; lia.
  - now rewrite Hres.
Qed.

(** More fuel does not change what the loop of [callback] does. *)
Lemma callback_loop_fuel_mono (L : TfwBinLogEvent) (fuel fuel' : nat)
    (data : list byte) (size : Z) (ch : TfwClickhouse) (res : CallbackResult) :
  callback_loop L fuel data size ch = Some res ->
  (fuel <= fuel')%nat ->
  callback_loop L fuel' data size ch = Some res.
Proof.
  revert fuel' data size ch.
  induction fuel as [|fuel IH]; intros fuel' data size ch; [discriminate|].
  destruct fuel' as [|fuel']; [lia|]. intros Hloop Hle.
  cbn [callback_loop] in *.
  destruct (size <? sizeof_TfwBinLogEvent L); [exact Hloop|].
  destruct (event_type L data =? TFW_MMAP_LOG_TYPE_ACCESS L); [|exact Hloop].
  destruct (read_access_log_event L data size (ch_block ch)) as [[r b] rd].
  destruct (r <? 0); [exact Hloop|].
  destruct (size - r >? 0); [|exact Hloop].
  apply IH; [exact Hloop|lia].
Qed.

(** One round of the loop of [callback] on an ACCESS frame. *)
Lemma callback_step (L : TfwBinLogEvent) (data : list byte)
    (size : Z) (ch : TfwClickhouse) (r : Z) (block : Block) (reads : ReadLog) :
  sizeof_TfwBinLogEvent L <= size ->
  event_type L data = TFW_MMAP_LOG_TYPE_ACCESS L ->
  read_access_log_event L data size (ch_block ch) = (r, block, reads) ->
  0 <= r ->
  callback L data size ch =
    if size - r >? 0 then
      callback L (skipn (Z.to_nat r) data) (size - r) (with_block ch block)
    else
      {| res_clickhouse := commit (with_block ch block); res_cerr := [];
         res_exit := ExitCommitted |}.
Proof.
  intros Hsize Htype Hdec Hr.
  pose proof (read_access_log_event_result L data size (ch_block ch)) as Hres.
  rewrite Hdec in Hres. cbn [fst] in Hres.
  pose proof (sizeof_TfwBinLogEvent_range L) as Hs.
  unfold callback at 1. unfold callback_fuel. cbn [callback_loop].
  replace (size <? sizeof_TfwBinLogEvent L) with false
    by (symmetry; apply Z.ltb_ge; lia).
  rewrite Htype, Z.eqb_refl, Hdec.
  replace (r <? 0) with false by (symmetry; apply Z.ltb_ge; lia).
  destruct (size - r >? 0) eqn:Hmore; [|reflexivity].
  rewrite (callback_loop_fuel_mono L (callback_fuel (size - r)) (Z.to_nat size)
             _ _ _ _ (callback_eq L _ _ _)); [reflexivity|].
  unfold callback_fuel. rewrite Z.gtb_ltb in Hmore. apply Z.ltb_lt in Hmore.
  destruct Hres as [Hres|Hres]; lia.
Qed.

Lemma extends_refl (block : Block) : extends block block.
Proof.
  induction block as [|c block IH]; constructor; [|exact IH].
  repeat split. exists []. now rewrite app_nil_r.
Qed.

Lemma extends_trans (b1 b2 b3 : Block) :
  extends b1 b2 -> extends b2 b3 -> extends b1 b3.
Proof.
  intros H12. revert b3.
  induction H12 as [|c1 c2 b1 b2 (Hn & Hc & m & Hm) _ IH]; intros b3 H23;
    inversion H23 as [|c2' c3 b2' b3' (Hn' & Hc' & m' & Hm') Hrest]; subst;
    constructor.
  - repeat split; try congruence.
    exists (m ++ m'). now rewrite Hm', Hm, app_assoc.
  - now apply IH.
Qed.

Lemma extends_Append (k : nat) (v : Value) (block : Block) :
  extends block (Append k v block).
Proof.
  revert k; induction block as [|c block IH]; intros k;
    [destruct k; constructor|].
  destruct k as [|k]; cbn [Append]; constructor.
  - repeat split. now exists [v].
  - apply extends_refl.
  - repeat split. exists []. now rewrite app_nil_r.
  - apply IH.
Qed.

Lemma fields_run_extends (L : TfwBinLogEvent) (data : list byte)
    (fs : list TfwBinLogFields) (c : Cursor) :
  match fields_run L data (map field_ord fs) c with
  | inl c' | inr c' => extends (cur_block c) (cur_block c')
  end.
Proof.
  revert c; induction fs as [|f fs IH]; intros c; cbn [map fields_run].
  - apply extends_refl.
  - destruct (field_step L data (field_ord f) c) as [c1|c1] eqn:Hstep.
    + apply field_step_inl in Hstep as ([v Hv] & _).
      specialize (IH c1).
      destruct (fields_run L data (map field_ord fs) c1);
        (eapply extends_trans; [|exact IH]); rewrite Hv; apply extends_Append.
    + apply field_step_inr in Hstep. rewrite Hstep. apply extends_refl.
Qed.

(** The block after a decode extends the block before it. *)
Lemma decoder_extends (L : TfwBinLogEvent)
    (data : list byte) (size : Z) (block : Block) :
  extends block (snd (fst (read_access_log_event L data size block))).
Proof.
  rewrite read_access_log_event_run, field_counters_fields.
  pose proof (fields_run_extends L data all_fields
                (start_cursor L data size block)) as Hrun.
  assert (Hts : extends block (cur_block (start_cursor L data size block)))
    by apply extends_Append.
  destruct (fields_run L data (map field_ord all_fields)
              (start_cursor L data size block));
    cbn [fst snd]; eapply extends_trans; eauto.
Qed.

Lemma callback_loop_extends (L : TfwBinLogEvent) (fuel : nat)
    (data : list byte) (size : Z) (ch : TfwClickhouse) (res : CallbackResult) :
  callback_loop L fuel data size ch = Some res ->
  exists block, extends (ch_block ch) block /\
    match res_exit res with
    | ExitCommitted =>
        ch_committed (res_clickhouse res) = ch_committed ch ++ [block]
    | _ =>
        ch_committed (res_clickhouse res) = ch_committed ch /\
        ch_block (res_clickhouse res) = block
    end.
Proof.
  revert data size ch res.
  induction fuel as [|fuel IH]; intros data size ch res; [discriminate|].
  cbn [callback_loop].
  assert (Hsame : extends (ch_block ch) (ch_block ch)) by apply extends_refl.
  assert (Hstay : forall msgs ex,
             ex <> ExitCommitted ->
             exists block, extends (ch_block ch) block /\
               match res_exit {| res_clickhouse := ch; res_cerr := msgs;
                                 res_exit := ex |} with
               | ExitCommitted =>
                   ch_committed ch = ch_committed ch ++ [block]
               | _ => ch_committed ch = ch_committed ch /\ ch_block ch = block
               end).
  { intros msgs ex Hex. exists (ch_block ch). split; [exact Hsame|].
    destruct ex; cbn; auto. congruence. }
  destruct (size <? sizeof_TfwBinLogEvent L);
    [intros [= <-]; now apply Hstay|].
  destruct (event_type L data =? TFW_MMAP_LOG_TYPE_ACCESS L).
  - pose proof (decoder_extends L data size (ch_block ch)) as Hext.
    destruct (read_access_log_event L data size (ch_block ch)) as [[r b] rd].
    cbn [fst snd] in Hext.
    destruct (r <? 0).
    { intros [= <-]. exists b. split; [exact Hext|]. cbn. auto. }
    destruct (size - r >? 0).
    + intros Hloop. apply IH in Hloop as (block & Hblock & Hres).
      exists block. split; [eapply extends_trans; eauto|exact Hres].
    + intros [= <-]. exists b. split; [exact Hext|reflexivity].
  - destruct (event_type L data =? TFW_MMAP_LOG_TYPE_DROPPED L).
    + destruct (sizeof_u64 >? to_int (size - sizeof_TfwBinLogEvent L));
        intros [= <-]; now apply Hstay.
    + intros [= <-]; now apply Hstay.
Qed.

(** The rounds that go round the loop lead [callback] to the span that is
    left, with their rows in the block. *)
Lemma callback_decoded (L : TfwBinLogEvent) (n : nat) (data data' : list byte)
    (size size' : Z) (ch : TfwClickhouse) (block' : Block) :
  decoded L n data size (ch_block ch) = (data', size', block') ->
  callback L data size ch = callback L data' size' (with_block ch block').
Proof.
  assert (Hsame : forall d z c, callback L d z c
                                = callback L d z (with_block c (ch_block c)))
    by (intros d z [b cm]; reflexivity).
  revert data size ch.
  induction n as [|n IH]; intros data size ch; cbn [decoded].
  { intros [= <- <- <-]. apply Hsame. }
  destruct ((sizeof_TfwBinLogEvent L <=? size)
            && (event_type L data =? TFW_MMAP_LOG_TYPE_ACCESS L)) eqn:Hhdr;
    [|intros [= <- <- <-]; apply Hsame].
  apply andb_prop in Hhdr as [Hsize Htype].
  apply Z.leb_le in Hsize. apply Z.eqb_eq in Htype.
  destruct (read_access_log_event L data size (ch_block ch))
    as [[r b] rd] eqn:Hread.
  destruct ((0 <=? r) && (size - r >? 0)) eqn:Hgo;
    [|intros [= <- <- <-]; apply Hsame].
  apply andb_prop in Hgo as [Hr Hmore]. apply Z.leb_le in Hr.
  intros Hrest.
  rewrite (callback_step L data size ch r b rd Hsize Htype Hread Hr), Hmore.
  apply (IH _ _ (with_block ch b) Hrest).
Qed.

(** A frame that drains the span, taken apart. *)
Lemma drains_Some (L : TfwBinLogEvent) (data : list byte) (size : Z)
    (block block' : Block) :
  drains L data size block = Some block' ->
  sizeof_TfwBinLogEvent L <= size /\
  event_type L data = TFW_MMAP_LOG_TYPE_ACCESS L /\
  exists r rd,
    read_access_log_event L data size block = (r, block', rd) /\
    0 <= r /\ (size - r >? 0) = false.
Proof.
  unfold drains.
  destruct ((sizeof_TfwBinLogEvent L <=? size)
            && (event_type L data =? TFW_MMAP_LOG_TYPE_ACCESS L)) eqn:Hhdr;
    [|discriminate].
  apply andb_prop in Hhdr as [Hsize Htype].
  apply Z.leb_le in Hsize. apply Z.eqb_eq in Htype.
  destruct (read_access_log_event L data size block) as [[r b] rd].
  destruct ((0 <=? r) && negb (size - r >? 0)) eqn:Hend; [|discriminate].
  apply andb_prop in Hend as [Hr Hmore]. apply Z.leb_le in Hr.
  apply negb_true_iff in Hmore.
  intros [= <-]. repeat split; trivial. now exists r, rd.
Qed.

(** The loop of [callback] reaches the commit only on a drained span. *)
Lemma callback_loop_drained (L : TfwBinLogEvent) (fuel : nat)
    (data : list byte) (size : Z) (ch : TfwClickhouse) (res : CallbackResult) :
  callback_loop L fuel data size ch = Some res ->
  res_exit res = ExitCommitted ->
  exists m block, drained L m data size (ch_block ch) = Some block.
Proof.
  revert data size ch.
  induction fuel as [|fuel IH]; intros data size ch; [discriminate|].
  cbn [callback_loop].
  destruct (Z.ltb_spec size (sizeof_TfwBinLogEvent L)) as [Hshort|Hsize];
    [intros [= <-]; discriminate|].
  destruct (event_type L data =? TFW_MMAP_LOG_TYPE_ACCESS L) eqn:Htype.
  - destruct (read_access_log_event L data size (ch_block ch))
      as [[r b] rd] eqn:Hread.
    destruct (Z.ltb_spec r 0) as [Hneg|Hr]; [intros [= <-]; discriminate|].
    assert (Hhdr : (sizeof_TfwBinLogEvent L <=? size)
                   && (event_type L data =? TFW_MMAP_LOG_TYPE_ACCESS L) = true).
    { rewrite Htype, andb_true_r. now apply Z.leb_le. }
    apply Z.leb_le in Hr.
    destruct (size - r >? 0) eqn:Hmore.
    + intros Hloop Hexit.
      destruct (IH _ _ _ Hloop Hexit) as (m & block & Hm).
      exists (S m), block. unfold drained in *. cbn [decoded].
      rewrite Hhdr, Hread, Hr, Hmore. exact Hm.
    + intros _ _. exists 0%nat, b. unfold drained, drains. cbn [decoded].
      rewrite Hhdr, Hread, Hr, Hmore. reflexivity.
  - destruct (event_type L data =? TFW_MMAP_LOG_TYPE_DROPPED L).
    + destruct (sizeof_u64 >? to_int (size - sizeof_TfwBinLogEvent L));
        intros [= <-]; discriminate.
    + intros [= <-]; discriminate.
Qed.

(** ** Claims about the span walker *)

(** C4. For every span that starts with a DROPPED frame, [callback] asks
    for eight bytes after the header; when they are there it prints as the
    count the little-endian 64-bit value of exactly those eight bytes (42
    for 2A 00 00 00 00 00 00 00) and returns at once: the client is left as
    it was and nothing after the count is decoded, even a whole ACCESS
    event. With fewer than eight bytes it reports the incorrect length and
    returns. *)
Theorem callback_dropped
    (L : TfwBinLogEvent) (data : list byte) (size : Z) (ch : TfwClickhouse) :
  sizeof_TfwBinLogEvent L <= size <= INT_MAX ->
  event_type L data = TFW_MMAP_LOG_TYPE_DROPPED L ->
  callback L data size ch =
    (if size - sizeof_TfwBinLogEvent L <? 8 then
       {| res_clickhouse := ch; res_cerr := [IncorrectEventLength];
          res_exit := ExitDroppedShort |}
     else
       {| res_clickhouse := ch;
          res_cerr :=
            [DroppedEvents
               (le_combine
                  (firstn 8 (skipn (Z.to_nat (sizeof_TfwBinLogEvent L)) data)))];
          res_exit := ExitDropped |})
  /\ callback spec_layout dropped_then_access (span_size dropped_then_access)
       empty_client
     = {| res_clickhouse := empty_client; res_cerr := [DroppedEvents 42];
          res_exit := ExitDropped |}.
Proof.
  intros Hsize Htype. split; [|vm_compute; reflexivity].
  pose proof (sizeof_TfwBinLogEvent_range L) as Hs.
  pose proof (TFW_MMAP_LOG_TYPE_distinct L) as Hd.
  unfold INT_MAX in Hsize.
  unfold callback, callback_fuel. cbn [callback_loop].
  replace (size <? sizeof_TfwBinLogEvent L) with false
    by (symmetry; apply Z.ltb_ge; lia).
  rewrite Htype.
  replace (TFW_MMAP_LOG_TYPE_DROPPED L =? TFW_MMAP_LOG_TYPE_ACCESS L) with false
    by (symmetry; apply Z.eqb_neq; congruence).
  rewrite Z.eqb_refl.
  rewrite to_int_small by lia.
  unfold sizeof_u64. rewrite Z.gtb_ltb.
  destruct (size - sizeof_TfwBinLogEvent L <? 8); reflexivity.
Qed.

Lemma callback_dropped_witness :
  sizeof_TfwBinLogEvent spec_layout <= span_size dropped_then_access <= INT_MAX /\
  event_type spec_layout dropped_then_access
    = TFW_MMAP_LOG_TYPE_DROPPED spec_layout /\
  res_cerr (callback spec_layout dropped_then_access
              (span_size dropped_then_access) empty_client)
    = [DroppedEvents 42].
Proof.
  assert (Hsize : sizeof_TfwBinLogEvent spec_layout
                  <= span_size dropped_then_access <= INT_MAX)
    by (vm_compute; split; discriminate).
  assert (Htype : event_type spec_layout dropped_then_access
                  = TFW_MMAP_LOG_TYPE_DROPPED spec_layout) by reflexivity.
  split; [exact Hsize|]. split; [exact Htype|].
  destruct (callback_dropped spec_layout dropped_then_access
              (span_size dropped_then_access) empty_client Hsize Htype)
    as [H _].
  rewrite H. reflexivity.
Defined.

(** A span that is one full ACCESS event is drained and committed. *)
Example callback_full_access :
  callback spec_layout full_access (span_size full_access) empty_client
  = {| res_clickhouse :=
         {| ch_block := make_block; ch_committed := [full_access_row] |};
       res_cerr := [];
       res_exit := ExitCommitted |}.
Proof. vm_compute; reflexivity. Qed.

(** C5, as the code has it. Let the loop of [callback] have gone round over
    any number of ACCESS events that decode and leave bytes behind them.
    When the frame it is then at drains the span, being an ACCESS event
    that decodes and leaves nothing, [callback] commits: one block, with the
    rows of all these events, is added to the committed ones, and the
    client holds a fresh block. When that frame has a type that is neither
    ACCESS nor DROPPED, [callback] prints the unsupported-type line and
    returns: nothing is committed, and the client's block holds the rows
    appended so far. And whatever the span, either it is drained in this
    way, or nothing is committed and the rows of the events decoded so far
    are in the client's block: [callback] commits at most once, and only a
    drained span. *)
Theorem callback_commits_only_when_drained
    (L : TfwBinLogEvent) (data data' : list byte) (size size' : Z)
    (ch : TfwClickhouse) (n : nat) (block' : Block) :
  decoded L n data size (ch_block ch) = (data', size', block') ->
  let res := callback L data size ch in
  (forall block,
     drains L data' size' block' = Some block ->
     res = {| res_clickhouse :=
                {| ch_block := make_block;
                   ch_committed := ch_committed ch ++ [block] |};
              res_cerr := []; res_exit := ExitCommitted |})
  /\
  (sizeof_TfwBinLogEvent L <= size' ->
   event_type L data' <> TFW_MMAP_LOG_TYPE_ACCESS L ->
   event_type L data' <> TFW_MMAP_LOG_TYPE_DROPPED L ->
   res = {| res_clickhouse := with_block ch block';
            res_cerr := [UnsupportedLogType (event_type L data')];
            res_exit := ExitUnsupported |})
  /\
  ((exists m block, drained L m data size (ch_block ch) = Some block) \/
   (ch_committed (res_clickhouse res) = ch_committed ch /\
    extends block' (ch_block (res_clickhouse res)))).
Proof.
  intros Hdec res. subst res.
  split; [|split].
  - intros block Hdrains.
    rewrite (callback_decoded L n _ _ _ _ _ _ Hdec).
    apply drains_Some in Hdrains
      as (Hsize & Htype & r & rd & Hread & Hr & Hmore).
    rewrite (callback_step L data' size' (with_block ch block') r block rd
               Hsize Htype Hread Hr), Hmore.
    reflexivity.
  - intros Hsize Hacc Hdrop.
    rewrite (callback_decoded L n _ _ _ _ _ _ Hdec).
    unfold callback, callback_fuel. cbn [callback_loop].
    replace (size' <? sizeof_TfwBinLogEvent L) with false
      by (symmetry; now apply Z.ltb_ge).
    apply Z.eqb_neq in Hacc. apply Z.eqb_neq in Hdrop.
    now rewrite Hacc, Hdrop.
  - destruct (res_exit (callback L data size ch)) eqn:Hexit;
      [| | | | |
       left;
       exact (callback_loop_drained L (callback_fuel size) data size ch _
                (callback_eq L _ _ _) Hexit)];
      right;
      rewrite (callback_decoded L n _ _ _ _ _ _ Hdec) in *;
      destruct (callback_loop_extends L (callback_fuel size') data' size'
                  (with_block ch block') _ (callback_eq L _ _ _))
        as (block & Hext & Hres);
      rewrite Hexit in Hres; destruct Hres as [Hcom <-];
      (split; [exact Hcom|exact Hext]).
Qed.

Lemma callback_commits_only_when_drained_witness :
  (decoded spec_layout 1 access_then_unknown (span_size access_then_unknown)
     (ch_block empty_client)
   = (encode_header 99 0 0, 11,
      row (VUInt 1) (VIPv6 (repeat Byte.xfe 16)) (VUInt 0) (VUInt 0) (VUInt 0)
        (VUInt 0) (VUInt 0) (VString []) (VString []) (VString [])
        (VString [])) /\
   callback spec_layout access_then_unknown (span_size access_then_unknown)
     empty_client
   = {| res_clickhouse :=
          with_block empty_client
            (row (VUInt 1) (VIPv6 (repeat Byte.xfe 16)) (VUInt 0) (VUInt 0)
               (VUInt 0) (VUInt 0) (VUInt 0) (VString []) (VString [])
               (VString []) (VString []));
        res_cerr := [UnsupportedLogType 99];
        res_exit := ExitUnsupported |})
  /\
  (decoded spec_layout 1 (full_access ++ full_access)
     (span_size (full_access ++ full_access)) (ch_block empty_client)
   = (full_access, 50, full_access_row) /\
   exists block,
     drains spec_layout full_access 50 full_access_row = Some block /\
     col_lengths block = repeat 2%nat 11 /\
     callback spec_layout (full_access ++ full_access)
       (span_size (full_access ++ full_access)) empty_client
     = {| res_clickhouse :=
            {| ch_block := make_block; ch_committed := [block] |};
          res_cerr := []; res_exit := ExitCommitted |}).
Proof.
  assert (Hdec : decoded spec_layout 1 access_then_unknown
                   (span_size access_then_unknown) (ch_block empty_client)
                 = (encode_header 99 0 0, 11,
                    row (VUInt 1) (VIPv6 (repeat Byte.xfe 16)) (VUInt 0)
                      (VUInt 0) (VUInt 0) (VUInt 0) (VUInt 0) (VString [])
                      (VString []) (VString []) (VString [])))
    by (vm_compute; reflexivity).
  assert (Hdec2 : decoded spec_layout 1 (full_access ++ full_access)
                    (span_size (full_access ++ full_access))
                    (ch_block empty_client)
                  = (full_access, 50, full_access_row))
    by (vm_compute; reflexivity).
  split; (split; [assumption|]).
  - apply (proj1 (proj2 (callback_commits_only_when_drained spec_layout
                           access_then_unknown _ _ _ empty_client 1 _ Hdec)));
      vm_compute; discriminate.
  - eexists. split; [vm_compute; reflexivity|]. split; [reflexivity|].
    apply (proj1 (callback_commits_only_when_drained spec_layout
                    (full_access ++ full_access) _ _ _ empty_client 1 _ Hdec2)).
    vm_compute; reflexivity.
Defined.

(** C5, counterexample. On a span made of a decodable ACCESS event and a
    frame of type 99, [callback] stops at the second frame and commits
    nothing: the row of the first event is left in the block. *)
Lemma callback_unknown_type_does_not_commit :
  let res := callback spec_layout access_then_unknown
               (span_size access_then_unknown) empty_client in
  res_cerr res = [UnsupportedLogType 99] /\
  ch_committed (res_clickhouse res) = [] /\
  List.length (ch_committed (res_clickhouse res)) <> 1%nat /\
  col_lengths (ch_block (res_clickhouse res))
    = [1; 1; 1; 1; 1; 1; 1; 1; 1; 1; 1]%nat.
Proof. vm_compute. repeat split; discriminate. Qed.

(** ** The supervisor: general facts *)

(** Threads that were just started are all joined, in order. *)
Lemma join_loop_fresh (i n : nat) :
  join_loop (repeat false i ++ repeat true n) i n
  = (map Join (seq i n), repeat false (i + n), true).
Proof.
  revert i; induction n as [|n IH]; intros i.
  - simpl. now rewrite app_nil_r, Nat.add_0_r.
  - cbn [join_loop].
    rewrite nth_error_app2 by (rewrite repeat_length; lia).
    rewrite repeat_length, Nat.sub_diag. cbn [repeat nth_error].
    rewrite firstn_app, repeat_length, Nat.sub_diag, firstn_O, app_nil_r.
    rewrite firstn_all2 by (rewrite repeat_length; lia).
    replace (skipn (S i) (repeat false i ++ true :: repeat true n))
      with (repeat true n).
    2:{ rewrite skipn_app, repeat_length.
        rewrite skipn_all2 by (rewrite repeat_length; lia).
        replace (S i - i)%nat with 1%nat by lia. reflexivity. }
    replace (repeat false i ++ false :: repeat true n)
      with (repeat false (S i) ++ repeat true n).
    2:{ change (repeat false (S i)) with (false :: repeat false i).
        rewrite repeat_cons, <- app_assoc. reflexivity. }
    rewrite IH. cbn [map seq].
    now replace (S i + n)%nat with (i + S n)%nat by lia.
Qed.









(** ** Claims about [main] *)

(** C7, as the code has it. With any number of arguments after the program
    name other than one, [main] prints the two usage lines and returns
    [-EINVAL], the negated errno value -22; it calls neither [open] nor
    starts a thread. *)
Theorem main_usage (argv0 : string) (args : list string) (cpu_cnt : nat)
    (opens : list OpenResult) :
  List.length args <> 1%nat ->
  main argv0 args cpu_cnt opens
  = ([Print "Usage:"; Print (tab ++ argv0 ++ " <host>")], Returned (- EINVAL)).
Proof.
  intros Hargs. unfold main.
  destruct (Z.of_nat (S (List.length args)) =? 2) eqn:Hargc; [|reflexivity].
  apply Z.eqb_eq in Hargc. lia.
Qed.

Lemma main_usage_witness :
  List.length (@nil string) <> 1%nat /\
  main "tfw_logger" [] 4 [open_ok]
  = ([Print "Usage:"; Print (tab ++ "tfw_logger" ++ " <host>")], Returned (-22)).
Proof.
  split; [discriminate|].
  apply (main_usage "tfw_logger" [] 4 [open_ok]). discriminate.
Defined.

(** C7, counterexample. Run without the host argument, [main] does not
    return EINVAL (22): it returns -22. *)
Lemma main_does_not_return_EINVAL :
  snd (main "tfw_logger" [] 4 [open_ok]) = Returned (-22) /\
  snd (main "tfw_logger" [] 4 [open_ok]) <> Returned EINVAL.
Proof. split; [reflexivity|discriminate]. Qed.






(** * Further properties *)

(** ** The round trip, exactly *)

Ltac bounds_check_fails :=
  match goal with
  | |- context [?a >? ?b] =>
      replace (a >? b) with true
        by (symmetry; rewrite Z.gtb_ltb; apply Z.ltb_lt; lia)
  end.

Ltac split_room :=
  repeat match goal with
         | |- context [?a <=? ?b] => destruct (Z.leb_spec a b)
         end;
  cbn [andb orb]; try (exfalso; lia).

(** One iteration of the field loop on the encoding of its field, whether
    the bounds check passes or not. *)
Lemma field_step_encoded_room (mask : Z) (e : AccessEvent)
    (f : TfwBinLogFields) (pre tail data : list byte) (c : Cursor) :
  data = pre ++ encode_field mask e f ++ tail ->
  event_fields spec_layout data = mask ->
  valid_event e ->
  cur_p c = Z.of_nat (List.length pre) ->
  0 <= cur_size c ->
  if room mask e f (cur_size c) then
    exists c',
      field_step spec_layout data (field_ord f) c = inl c' /\
      cur_p c' = cur_p c + Z.of_nat (List.length (encode_field mask e f)) /\
      cur_size c' = cur_size c - Z.of_nat (List.length (encode_field mask e f)) /\
      cur_block c' =
        Append (S (field_ord f)) (decoded_value mask e f) (cur_block c)
  else
    exists c', field_step spec_layout data (field_ord f) c = inr c'.
Proof.
  intros Hdata Hmask Hvalid Hp Hsize.
  destruct Hvalid as (Hts & Haddr & Hm & Hv & Hst & Hl & Ht & Hvh & Hu & Hr & Ha).
  unfold field_step. rewrite field_of_int_ord.
  unfold TFW_MMAP_LOG_FIELD_IS_SET. rewrite Hmask.
  fold (present mask f).
  unfold room, encode_field, decoded_value, absent_value in *.
  destruct (present mask f) eqn:Hset.
  - clear Hmask. subst data.
    destruct f;
      cbn [is_string_field tfw_mmap_log_field_len negb field_value
           encode_value sizeof_val int_value];
      rewrite ?length_app, ?length_le_split, ?Haddr; split_room.
    + bounds_check_passes. step_done.
      pose proof (bytes_at_app pre (ev_address e) tail) as Hb.
      rewrite Haddr in Hb. now rewrite Hp, Hb.
    + bounds_check_fails. eexists; reflexivity.
    + bounds_check_passes. step_done.
      rewrite Hp, read_uint_app; [reflexivity|].
      change (2 ^ (Z.of_nat 1 * 8)) with (2 ^ 8). assumption.
    + bounds_check_fails. eexists; reflexivity.
    + bounds_check_passes. step_done.
      rewrite Hp, read_uint_app; [reflexivity|].
      change (2 ^ (Z.of_nat 1 * 8)) with (2 ^ 8). assumption.
    + bounds_check_fails. eexists; reflexivity.
    + bounds_check_passes. step_done.
      rewrite Hp, read_uint_app; [reflexivity|].
      change (2 ^ (Z.of_nat 2 * 8)) with (2 ^ 16). assumption.
    + bounds_check_fails. eexists; reflexivity.
    + bounds_check_passes. step_done.
      rewrite Hp, read_uint_app; [reflexivity|].
      change (2 ^ (Z.of_nat 4 * 8)) with (2 ^ 32). assumption.
    + bounds_check_fails. eexists; reflexivity.
    + bounds_check_passes. step_done.
      rewrite Hp, read_uint_app; [reflexivity|].
      change (2 ^ (Z.of_nat 4 * 8)) with (2 ^ 32). assumption.
    + bounds_check_fails. eexists; reflexivity.
    + destruct (string_reads pre _ tail Hvh) as [Hlen Hbytes].
      rewrite Hp, Hlen. bounds_check_passes. step_done.
      now rewrite Nat2Z.id, Hbytes.
    + destruct (string_reads pre _ tail Hvh) as [Hlen Hbytes].
      rewrite Hp, Hlen. bounds_check_fails. eexists; reflexivity.
    + destruct (string_reads pre _ tail Hu) as [Hlen Hbytes].
      rewrite Hp, Hlen. bounds_check_passes. step_done.
      now rewrite Nat2Z.id, Hbytes.
    + destruct (string_reads pre _ tail Hu) as [Hlen Hbytes].
      rewrite Hp, Hlen. bounds_check_fails. eexists; reflexivity.
    + destruct (string_reads pre _ tail Hr) as [Hlen Hbytes].
      rewrite Hp, Hlen. bounds_check_passes. step_done.
      now rewrite Nat2Z.id, Hbytes.
    + destruct (string_reads pre _ tail Hr) as [Hlen Hbytes].
      rewrite Hp, Hlen. bounds_check_fails. eexists; reflexivity.
    + destruct (string_reads pre _ tail Ha) as [Hlen Hbytes].
      rewrite Hp, Hlen. bounds_check_passes. step_done.
      now rewrite Nat2Z.id, Hbytes.
    + destruct (string_reads pre _ tail Ha) as [Hlen Hbytes].
      rewrite Hp, Hlen. bounds_check_fails. eexists; reflexivity.
  - cbn [List.length Z.of_nat].
    destruct f; cbn [is_string_field tfw_mmap_log_field_len negb];
      split_room;
      first [ bounds_check_fails; eexists; reflexivity
            | try bounds_check_passes; step_done; reflexivity ].
Qed.

Lemma fields_run_encoded_room (mask : Z) (e : AccessEvent)
    (fs : list TfwBinLogFields) (pre tail data : list byte) (c : Cursor) :
  data = pre ++ encode_body mask e fs ++ tail ->
  event_fields spec_layout data = mask ->
  valid_event e ->
  cur_p c = Z.of_nat (List.length pre) ->
  0 <= cur_size c ->
  if body_room mask e fs (cur_size c) then
    exists c',
      fields_run spec_layout data (map field_ord fs) c = inl c' /\
      cur_p c' = cur_p c + Z.of_nat (List.length (encode_body mask e fs)) /\
      cur_block c' =
        fold_left
          (fun b f => Append (S (field_ord f)) (decoded_value mask e f) b)
          fs (cur_block c)
  else
    exists c', fields_run spec_layout data (map field_ord fs) c = inr c'.
Proof.
  revert pre c; induction fs as [|f fs IH]; intros pre c Hdata Hmask Hvalid Hp Hsize.
  - exists c. cbn. repeat split. lia.
  - cbn [encode_body body_room map fields_run fold_left] in *.
    assert (Hdata' : data = pre ++ encode_field mask e f
                              ++ encode_body mask e fs ++ tail)
      by now rewrite Hdata, <- app_assoc.
    pose proof (field_step_encoded_room mask e f pre
                  (encode_body mask e fs ++ tail) data c
                  Hdata' Hmask Hvalid Hp Hsize) as Hstep.
    destruct (room mask e f (cur_size c)) eqn:Hroom; cbn [andb].
    + destruct Hstep as (c1 & Hstep & Hp1 & Hsize1 & Hblock1).
      rewrite Hstep.
      unfold room in Hroom. apply andb_prop in Hroom as [Hfit _].
      apply Z.leb_le in Hfit.
      specialize (IH (pre ++ encode_field mask e f) c1).
      rewrite Hsize1 in IH.
      destruct (body_room mask e fs
                  (cur_size c - Z.of_nat (List.length (encode_field mask e f)))).
      * destruct IH as (c' & Hrun & Hp' & Hblock'); try assumption.
        -- now rewrite Hdata, <- !app_assoc.
        -- rewrite length_app. lia.
        -- lia.
        -- exists c'. split; [exact Hrun|]. split.
           ++ rewrite length_app. lia.
           ++ now rewrite Hblock', Hblock1.
      * apply IH; try assumption.
        -- now rewrite Hdata, <- !app_assoc.
        -- rewrite length_app. lia.
        -- lia.
    + destruct Hstep as (c1 & Hstep). rewrite Hstep. eauto.
Qed.

(** The decoder on the encoding of an event, by the room it finds. *)
Lemma decode_encoded_cases (mask : Z) (e : AccessEvent)
    (rest : list byte) (block : Block) :
  valid_event e ->
  0 <= mask < 2 ^ 16 ->
  well_formed block ->
  span_size (encode_access mask e ++ rest) <= INT_MAX ->
  let data := encode_access mask e ++ rest in
  let res := read_access_log_event spec_layout data (span_size data) block in
  if body_room mask e all_fields (span_size data - 11) then
    fst res
    = (span_size (encode_access mask e), append_row block (event_row mask e))
  else
    fst (fst res) = -1.
Proof.
  intros Hvalid Hmask Hwf Hmax data res. subst res.
  assert (Hdata : data = encode_header 1 mask (ev_timestamp e)
                         ++ encode_body mask e all_fields ++ rest)
    by (unfold data, encode_access; now rewrite <- app_assoc).
  destruct (header_of_encoded mask (ev_timestamp e)
              (encode_body mask e all_fields ++ rest) Hmask)
    as (_ & Hfields & Hts); [apply Hvalid|].
  rewrite <- Hdata in Hfields, Hts.
  assert (Hlen : span_size data
                 = 11 + Z.of_nat (List.length (encode_body mask e all_fields))
                   + Z.of_nat (List.length rest)).
  { unfold span_size. rewrite Hdata, !length_app, length_encode_header. lia. }
  fold data in Hmax. unfold INT_MAX in Hmax.
  rewrite read_access_log_event_run, field_counters_fields.
  pose proof (fields_run_encoded_room mask e all_fields
                (encode_header 1 mask (ev_timestamp e)) rest data
                (start_cursor spec_layout data (span_size data) block)
                Hdata Hfields Hvalid eq_refl) as Hrun.
  cbn [start_cursor cur_size cur_p cur_block spec_layout
       sizeof_TfwBinLogEvent] in Hrun.
  unfold spec_sizeof in Hrun. rewrite to_int_small in Hrun by lia.
  specialize (Hrun ltac:(lia)).
  destruct (body_room mask e all_fields (span_size data - 11)).
  - destruct Hrun as (c' & Hrun & Hp & Hblock).
    rewrite Hrun. cbn [fst].
    rewrite Hp, Hblock, to_int_small by lia.
    f_equal.
    + unfold span_size, encode_access.
      rewrite length_app, length_encode_header. lia.
    + cbn [event_timestamp spec_layout] in *. rewrite Hts.
      apply append_row_fields. now apply well_formed_columns.
  - destruct Hrun as (c' & Hrun). rewrite Hrun. reflexivity.
Qed.

(** X1. The round trip, exactly. On the encoding of an event, whatever follows
    it in the span, the decoder consumes the frame and appends the row of the
    event when every bounds check finds room, and returns -1 otherwise. The
    checks are those of [body_room]: the encoding of each field of the set
    must fit, and each field of fixed length must find its length in the
    bytes left even when the set does not have it. *)
Theorem decode_encoded_access_exact (mask : Z) (e : AccessEvent)
    (rest : list byte) (block : Block) :
  valid_event e ->
  0 <= mask < 2 ^ 16 ->
  well_formed block ->
  span_size (encode_access mask e ++ rest) <= INT_MAX ->
  let data := encode_access mask e ++ rest in
  let res := read_access_log_event spec_layout data (span_size data) block in
  if body_room mask e all_fields (span_size data - 11) then
    fst res
    = (span_size (encode_access mask e), append_row block (event_row mask e))
  else
    fst (fst res) = -1.
Proof. exact (decode_encoded_cases mask e rest block). Qed.

Lemma length_encode_fixed (mask : Z) (e : AccessEvent) (f : TfwBinLogFields) :
  valid_event e ->
  is_string_field f = false ->
  present mask f = true ->
  Z.of_nat (List.length (encode_field mask e f)) = tfw_mmap_log_field_len f.
Proof.
  intros Hvalid Hfixed Hset. unfold encode_field. rewrite Hset.
  destruct Hvalid as (_ & Haddr & _).
  destruct f; try discriminate Hfixed;
    cbn [field_value encode_value sizeof_val tfw_mmap_log_field_len];
    rewrite ?length_le_split, ?Haddr; reflexivity.
Qed.

Lemma body_room_fixed_present (mask : Z) (e : AccessEvent)
    (fs : list TfwBinLogFields) (size : Z) :
  valid_event e ->
  fixed_fields_present mask ->
  Z.of_nat (List.length (encode_body mask e fs)) <= size ->
  body_room mask e fs size = true.
Proof.
  intros Hvalid Hfixed. revert size.
  induction fs as [|f fs IH]; intros size Hsize; [reflexivity|].
  cbn [encode_body body_room] in *. rewrite length_app in Hsize.
  apply andb_true_intro. split.
  - unfold room. apply andb_true_intro. split; [apply Z.leb_le; lia|].
    destruct (is_string_field f) eqn:Hstr; [reflexivity|].
    cbn [orb]. apply Z.leb_le.
    rewrite <- (length_encode_fixed mask e f Hvalid Hstr (Hfixed f Hstr)). lia.
  - apply IH. lia.
Qed.

(** The decoder on an event that has the fields of fixed length. *)
Lemma decode_encoded_fixed (mask : Z) (e : AccessEvent)
    (rest : list byte) (block : Block) :
  valid_event e ->
  0 <= mask < 2 ^ 16 ->
  fixed_fields_present mask ->
  well_formed block ->
  span_size (encode_access mask e ++ rest) <= INT_MAX ->
  fst (read_access_log_event spec_layout (encode_access mask e ++ rest)
         (span_size (encode_access mask e ++ rest)) block)
  = (span_size (encode_access mask e), append_row block (event_row mask e)).
Proof.
  intros Hvalid Hmask Hfixed Hwf Hmax.
  pose proof (decode_encoded_cases mask e rest block
                Hvalid Hmask Hwf Hmax) as Hexact.
  cbv zeta in Hexact.
  rewrite body_room_fixed_present in Hexact; auto.
  unfold span_size, encode_access.
  rewrite !length_app, length_encode_header. lia.
Qed.

(** X3. The round trip at the end of a span. When the field set has all six
    fields of fixed length, the decoder consumes the frame and appends the
    row of the event whatever follows the frame, and also when nothing
    does. *)
Theorem decode_encoded_access_fixed_present (mask : Z) (e : AccessEvent)
    (rest : list byte) (block : Block) :
  valid_event e ->
  0 <= mask < 2 ^ 16 ->
  fixed_fields_present mask ->
  well_formed block ->
  span_size (encode_access mask e ++ rest) <= INT_MAX ->
  fst (read_access_log_event spec_layout (encode_access mask e ++ rest)
         (span_size (encode_access mask e ++ rest)) block)
  = (span_size (encode_access mask e), append_row block (event_row mask e)).
Proof. exact (decode_encoded_fixed mask e rest block). Qed.

(** ** Walking a span frame by frame *)

(** A first frame of type ACCESS that decodes is taken off the span: the
    walk goes on behind it with the row in the block, and commits when
    nothing is left behind it. *)
Theorem callback_access_step (L : TfwBinLogEvent) (data : list byte)
    (size : Z) (ch : TfwClickhouse) (r : Z) (block : Block) (reads : ReadLog) :
  sizeof_TfwBinLogEvent L <= size ->
  event_type L data = TFW_MMAP_LOG_TYPE_ACCESS L ->
  read_access_log_event L data size (ch_block ch) = (r, block, reads) ->
  0 <= r ->
  callback L data size ch =
    if size - r >? 0 then
      callback L (skipn (Z.to_nat r) data) (size - r) (with_block ch block)
    else
      {| res_clickhouse := commit (with_block ch block); res_cerr := [];
         res_exit := ExitCommitted |}.
Proof. exact (callback_step L data size ch r block reads). Qed.

Lemma span_size_app (a b : list byte) :
  span_size (a ++ b) = span_size a + span_size b.
Proof. unfold span_size. rewrite length_app. lia. Qed.

Lemma span_size_encode_access (mask : Z) (e : AccessEvent) :
  11 <= span_size (encode_access mask e).
Proof.
  unfold span_size, encode_access.
  rewrite length_app, length_encode_header. lia.
Qed.

Lemma skipn_span (a b : list byte) :
  skipn (Z.to_nat (span_size a)) (a ++ b) = b.
Proof.
  unfold span_size. rewrite Nat2Z.id, skipn_app, skipn_all, Nat.sub_diag.
  reflexivity.
Qed.

(** Walking the first of the frames of a span. *)
Lemma callback_encoded_frame (mask : Z) (e : AccessEvent)
    (rest : list byte) (ch : TfwClickhouse) :
  valid_frame (mask, e) ->
  well_formed (ch_block ch) ->
  span_size (encode_access mask e ++ rest) <= INT_MAX ->
  let block := append_row (ch_block ch) (event_row mask e) in
  well_formed block /\
  callback spec_layout (encode_access mask e ++ rest)
    (span_size (encode_access mask e ++ rest)) ch =
    match rest with
    | [] =>
        {| res_clickhouse := commit (with_block ch block); res_cerr := [];
           res_exit := ExitCommitted |}
    | _ => callback spec_layout rest (span_size rest) (with_block ch block)
    end.
Proof.
  intros (Hvalid & Hmask & Hfixed) Hwf Hmax block.
  pose proof (decode_encoded_fixed mask e rest (ch_block ch)
                Hvalid Hmask Hfixed Hwf Hmax) as Hdec.
  pose proof (span_size_encode_access mask e) as Hlen.
  destruct (read_access_log_event spec_layout (encode_access mask e ++ rest)
              (span_size (encode_access mask e ++ rest)) (ch_block ch))
    as [[r b] rd] eqn:Hread.
  cbn [fst] in Hdec. injection Hdec as -> ->.
  fold block in Hread.
  assert (Hwf' : well_formed block).
  { eapply read_access_log_event_success; [exact Hwf|exact Hread|lia]. }
  split; [exact Hwf'|].
  assert (Hhdr : sizeof_TfwBinLogEvent spec_layout
                 <= span_size (encode_access mask e ++ rest)).
  { rewrite span_size_app. unfold span_size at 2.
    cbn [spec_layout sizeof_TfwBinLogEvent]. unfold spec_sizeof. lia. }
  assert (Htype : event_type spec_layout (encode_access mask e ++ rest)
                  = TFW_MMAP_LOG_TYPE_ACCESS spec_layout).
  { unfold encode_access. rewrite <- app_assoc.
    apply (header_of_encoded mask (ev_timestamp e)); [exact Hmask|apply Hvalid]. }
  rewrite (callback_step spec_layout _ _ ch _ _ _ Hhdr Htype Hread
             ltac:(lia)).
  rewrite span_size_app, skipn_span.
  replace (span_size (encode_access mask e) + span_size rest
           - span_size (encode_access mask e)) with (span_size rest) by lia.
  destruct rest as [|b0 rest]; [reflexivity|].
  replace (span_size (b0 :: rest) >? 0) with true; [reflexivity|].
  symmetry. rewrite Z.gtb_ltb. apply Z.ltb_lt.
  unfold span_size. cbn [List.length]. lia.
Qed.

Lemma Forall_valid_frame_cons (me : Z * AccessEvent)
    (evs : list (Z * AccessEvent)) :
  Forall valid_frame (me :: evs) -> valid_frame me /\ Forall valid_frame evs.
Proof. intros H. inversion H; auto. Qed.

(** The walk over the frames of [evs]. *)
Lemma callback_span (evs : list (Z * AccessEvent))
    (tail : list byte) (ch : TfwClickhouse) :
  evs <> [] ->
  Forall valid_frame evs ->
  well_formed (ch_block ch) ->
  span_size (encode_span evs ++ tail) <= INT_MAX ->
  callback spec_layout (encode_span evs ++ tail)
    (span_size (encode_span evs ++ tail)) ch =
    match tail with
    | [] =>
        {| res_clickhouse :=
             commit (with_block ch (append_rows (ch_block ch) evs));
           res_cerr := []; res_exit := ExitCommitted |}
    | _ =>
        callback spec_layout tail (span_size tail)
          (with_block ch (append_rows (ch_block ch) evs))
    end.
Proof.
  revert ch. induction evs as [|[mask e] evs IH]; intros ch Hne Hall Hwf Hmax;
    [congruence|].
  apply Forall_valid_frame_cons in Hall as [Hframe Hall].
  cbn [encode_span] in *. rewrite <- app_assoc in *.
  destruct (callback_encoded_frame mask e (encode_span evs ++ tail) ch
              Hframe Hwf Hmax) as [Hwf' Hstep].
  rewrite Hstep. clear Hstep.
  destruct evs as [|me evs].
  - cbn [encode_span app append_rows fold_left fst snd].
    destruct tail; reflexivity.
  - assert (Hcons : exists b0 l, encode_span (me :: evs) ++ tail = b0 :: l).
    { destruct me as [m0 e0]. cbn [encode_span].
      unfold encode_access, encode_header.
      change (le_split 1 1) with [byte.of_Z 1].
      rewrite <- !app_assoc. cbn [app]. eauto. }
    destruct Hcons as (b0 & l & Hcons). rewrite Hcons. rewrite <- Hcons.
    rewrite span_size_app in Hmax.
    pose proof (span_size_encode_access mask e).
    rewrite IH; [reflexivity|discriminate|exact Hall|exact Hwf'|].
    cbn [ch_block with_block]. unfold span_size in *. lia.
Qed.

(** X9. A span that begins with the frames of [evs]: [callback] appends the
    rows of the events in order and goes on with what follows the frames;
    when nothing follows, it commits the block with those rows. *)
Theorem callback_encoded_span (evs : list (Z * AccessEvent))
    (tail : list byte) (ch : TfwClickhouse) :
  evs <> [] ->
  Forall valid_frame evs ->
  well_formed (ch_block ch) ->
  span_size (encode_span evs ++ tail) <= INT_MAX ->
  callback spec_layout (encode_span evs ++ tail)
    (span_size (encode_span evs ++ tail)) ch =
    match tail with
    | [] =>
        {| res_clickhouse :=
             commit (with_block ch (append_rows (ch_block ch) evs));
           res_cerr := []; res_exit := ExitCommitted |}
    | _ =>
        callback spec_layout tail (span_size tail)
          (with_block ch (append_rows (ch_block ch) evs))
    end.
Proof. exact (callback_span evs tail ch). Qed.

(** X10. A span of whole frames, each with its six fixed-width fields present,
    followed by a fragment shorter than a header: the rows of the frames
    are appended, and [callback] returns without committing them. *)
Theorem callback_trailing_fragment (evs : list (Z * AccessEvent))
    (tail : list byte) (ch : TfwClickhouse) :
  evs <> [] ->
  Forall valid_frame evs ->
  well_formed (ch_block ch) ->
  span_size (encode_span evs ++ tail) <= INT_MAX ->
  (0 < List.length tail < 11)%nat ->
  callback spec_layout (encode_span evs ++ tail)
    (span_size (encode_span evs ++ tail)) ch
  = {| res_clickhouse := with_block ch (append_rows (ch_block ch) evs);
       res_cerr := []; res_exit := ExitShortHeader |}.
Proof.
  intros Hne Hall Hwf Hmax Htail.
  rewrite callback_span by assumption.
  destruct tail as [|b0 tail]; [cbn in Htail; lia|].
  unfold callback, callback_fuel. cbn [callback_loop].
  replace (span_size (b0 :: tail) <? sizeof_TfwBinLogEvent spec_layout)
    with true; [reflexivity|].
  symmetry. apply Z.ltb_lt. unfold span_size.
  cbn [spec_layout sizeof_TfwBinLogEvent]. unfold spec_sizeof. lia.
Qed.

(** ** Alignment of the block across a span *)

Lemma decode_failed_lengths (k m : nat) :
  (k < 10)%nat ->
  bump_fields (firstn k all_fields) (bump 0 (repeat m 11))
  = repeat (S m) (S k) ++ repeat m (10 - k).
Proof.
  intros Hk.
  do 10 (destruct k as [|k]; [reflexivity|]). lia.
Qed.

Lemma aligned_success (n : nat) (block block' : Block) :
  aligned n block ->
  col_lengths block' = bump_fields all_fields (bump 0 (col_lengths block)) ->
  schema block' = schema block ->
  aligned (S n) block'.
Proof.
  intros [Hwf Hlen] Hcols Hsch. split.
  - unfold well_formed in *. congruence.
  - rewrite Hcols, bump_all by now apply well_formed_length.
    rewrite Hlen. apply map_repeat.
Qed.

Lemma callback_loop_alignment (L : TfwBinLogEvent) (fuel : nat)
    (data : list byte) (size : Z) (ch : TfwClickhouse) (n : nat)
    (res : CallbackResult) :
  aligned n (ch_block ch) ->
  callback_loop L fuel data size ch = Some res ->
  match res_exit res with
  | ExitCommitted =>
      exists block k,
        ch_committed (res_clickhouse res) = ch_committed ch ++ [block] /\
        aligned (n + S k) block
  | ExitDecodeFailed =>
      exists k j, (j < 10)%nat /\
        col_lengths (ch_block (res_clickhouse res))
        = repeat (S (n + k))%nat (S j) ++ repeat (n + k)%nat (10 - j)
  | _ => exists k, aligned (n + k) (ch_block (res_clickhouse res))
  end.
Proof.
  revert data size ch n res.
  induction fuel as [|fuel IH]; intros data size ch n res Hal; [discriminate|].
  cbn [callback_loop].
  assert (Hsame : exists k, aligned (n + k) (ch_block ch))
    by (exists 0%nat; now rewrite Nat.add_0_r).
  destruct (size <? sizeof_TfwBinLogEvent L); [now intros [= <-]|].
  destruct (event_type L data =? TFW_MMAP_LOG_TYPE_ACCESS L).
  - pose proof (read_access_log_event_cases L data size (ch_block ch)) as Hc.
    destruct (read_access_log_event L data size (ch_block ch)) as [[r b] rd].
    pose proof (event_len_bound L data) as Hev.
    pose proof (sizeof_TfwBinLogEvent_range L) as Hs.
    destruct Hc as [(-> & j & Hj & Hcols)|(-> & Hcols & Hsch)].
    + cbn [Z.ltb Z.compare]. intros [= <-].
      cbn [res_exit res_clickhouse ch_block with_block].
      exists 0%nat, j. split; [exact Hj|].
      destruct Hal as [_ Hlen].
      rewrite Hcols, Hlen, Nat.add_0_r. now apply decode_failed_lengths.
    + replace (event_len L data <? 0) with false
        by (symmetry; apply Z.ltb_ge; lia).
      pose proof (aligned_success n (ch_block ch) b Hal Hcols Hsch) as Hal'.
      destruct (size - event_len L data >? 0).
      * intros Hloop.
        specialize (IH _ _ (with_block ch b) (S n) res Hal' Hloop).
        destruct (res_exit res).
        -- destruct IH as [k Hk]. exists (S k).
           now rewrite Nat.add_succ_r.
        -- destruct IH as (k & j & Hj & Hk). exists (S k), j.
           now rewrite Nat.add_succ_r.
        -- destruct IH as [k Hk]. exists (S k). now rewrite Nat.add_succ_r.
        -- destruct IH as [k Hk]. exists (S k). now rewrite Nat.add_succ_r.
        -- destruct IH as [k Hk]. exists (S k). now rewrite Nat.add_succ_r.
        -- destruct IH as (blk & k & Hcom & Hk). exists blk, (S k).
           split; [exact Hcom|]. now rewrite Nat.add_succ_r.
      * intros [= <-].
        cbn [res_exit res_clickhouse ch_block ch_committed with_block commit].
        exists b, 0%nat.
        split; [reflexivity|]. now rewrite Nat.add_1_r.
  - destruct (event_type L data =? TFW_MMAP_LOG_TYPE_DROPPED L).
    + destruct (sizeof_u64 >? to_int (size - sizeof_TfwBinLogEvent L));
        now intros [= <-].
    + now intros [= <-].
Qed.

(** X11. Alignment across a span. When all columns of the client's block have
    [n] rows, a block that [callback] commits has the same number of rows in
    every column, at least one more than [n]. The columns are left unequal
    exactly on a failed decode, where the timestamp and the first fields of
    the failing event have one row more than the other columns; on every
    other way out the block stays aligned. *)
Theorem callback_alignment (L : TfwBinLogEvent) (data : list byte)
    (size : Z) (ch : TfwClickhouse) (n : nat) :
  aligned n (ch_block ch) ->
  let res := callback L data size ch in
  match res_exit res with
  | ExitCommitted =>
      exists block k,
        ch_committed (res_clickhouse res) = ch_committed ch ++ [block] /\
        aligned (n + S k) block
  | ExitDecodeFailed =>
      exists k j, (j < 10)%nat /\
        col_lengths (ch_block (res_clickhouse res))
        = repeat (S (n + k))%nat (S j) ++ repeat (n + k)%nat (10 - j)
  | _ => exists k, aligned (n + k) (ch_block (res_clickhouse res))
  end.
Proof.
  intros Hal res.
  apply (callback_loop_alignment L (callback_fuel size) data size ch n res Hal).
  apply callback_eq.
Qed.

(** ** Rows are only ever added *)

(** X5. The decoder only appends. Whatever the input and whether it succeeds or
    fails, the block after the call has the same columns, with the same names
    and types, and every column still begins with the rows it had. *)
Theorem read_access_log_event_extends (L : TfwBinLogEvent)
    (data : list byte) (size : Z) (block : Block) :
  extends block (snd (fst (read_access_log_event L data size block))).
Proof. exact (decoder_extends L data size block). Qed.

(** X12. No row is lost in a span. After [callback], the rows the client's
    block had are still there, in their columns and in front: in the block
    the call committed when it commits, and in the client's block, with the
    committed blocks untouched, when it does not. *)
Theorem callback_keeps_rows (L : TfwBinLogEvent) (data : list byte)
    (size : Z) (ch : TfwClickhouse) :
  let res := callback L data size ch in
  exists block, extends (ch_block ch) block /\
    match res_exit res with
    | ExitCommitted =>
        ch_committed (res_clickhouse res) = ch_committed ch ++ [block]
    | _ =>
        ch_committed (res_clickhouse res) = ch_committed ch /\
        ch_block (res_clickhouse res) = block
    end.
Proof.
  intros res.
  apply (callback_loop_extends L (callback_fuel size) data size ch res).
  apply callback_eq.
Qed.

(** ** Bytes consumed *)

Lemma fields_run_in_span (L : TfwBinLogEvent) (data : list byte) (size : Z)
    (fs : list TfwBinLogFields) (c c' : Cursor) :
  cursor_in_span size c ->
  fields_run L data (map field_ord fs) c = inl c' ->
  cursor_in_span size c'.
Proof.
  revert c; induction fs as [|f fs IH]; intros c Hc; cbn [map fields_run].
  - now intros [= <-].
  - pose proof (field_step_reads L data size f c Hc) as Hstep.
    destruct (field_step L data (field_ord f) c) as [c1|c1]; [|discriminate].
    now apply IH.
Qed.

(** X6. The decoder never claims more than it was given. On a span that holds
    at least a header, a decode that succeeds returns a count between the
    size of the header and the size of the span. *)
Theorem read_access_log_event_within_span (L : TfwBinLogEvent)
    (data : list byte) (size : Z) (block : Block) :
  sizeof_TfwBinLogEvent L <= size <= INT_MAX ->
  let r := fst (fst (read_access_log_event L data size block)) in
  0 <= r ->
  sizeof_TfwBinLogEvent L <= r <= size.
Proof.
  intros Hsize r Hr. subst r. unfold INT_MAX in Hsize.
  pose proof (sizeof_TfwBinLogEvent_range L) as Hs.
  rewrite read_access_log_event_run, field_counters_fields in *.
  assert (Hc : cursor_in_span size (start_cursor L data size block)).
  { unfold cursor_in_span, in_span; cbn [start_cursor cur_p cur_size cur_reads].
    rewrite to_int_small by lia.
    repeat split; try lia. repeat constructor; cbn; lia. }
  pose proof (fun c' => fields_run_in_span L data size all_fields _ c' Hc) as Hspan.
  pose proof (fields_run_inl L data all_fields (start_cursor L data size block))
    as Hinl.
  destruct (fields_run L data (map field_ord all_fields)
              (start_cursor L data size block)) as [c'|c'];
    cbn [fst] in *; [|lia].
  destruct (Hspan c' eq_refl) as (Hp & Hleft & Hsum & _).
  destruct (Hinl c' eq_refl) as (_ & _ & Hlen).
  cbn [start_cursor cur_p] in Hlen.
  pose proof (body_len_bound L data all_fields (sizeof_TfwBinLogEvent L)).
  rewrite to_int_small by lia. lia.
Qed.

(** ** Bits of the mask beyond the fields *)

Lemma field_of_int_Some (i : nat) (f : TfwBinLogFields) :
  field_of_int i = Some f -> (i < 10)%nat.
Proof.
  unfold field_of_int. intros H.
  apply (proj1 (nth_error_Some all_fields i)). congruence.
Qed.

Lemma field_step_with_fields (L : TfwBinLogEvent) (fields : list byte -> Z)
    (data : list byte) (i : nat) (c : Cursor) :
  (forall j, 0 <= j < 10 ->
     Z.testbit (fields data) j = Z.testbit (event_fields L data) j) ->
  field_step (with_fields L fields) data i c = field_step L data i c.
Proof.
  intros Hbits. unfold field_step.
  destruct (field_of_int i) as [f|] eqn:Hf; [|reflexivity].
  apply field_of_int_Some in Hf.
  unfold TFW_MMAP_LOG_FIELD_IS_SET. cbn [with_fields event_fields].
  rewrite Hbits by lia. reflexivity.
Qed.

(** X8. Only the ten low bits of the mask count. Two headers that differ only
    in mask bits from bit 10 upwards decode alike: same result, same block,
    same reads. *)
Theorem read_access_log_event_high_mask_bits (L : TfwBinLogEvent)
    (fields : list byte -> Z) (data : list byte) (size : Z) (block : Block) :
  (forall j, 0 <= j < 10 ->
     Z.testbit (fields data) j = Z.testbit (event_fields L data) j) ->
  read_access_log_event (with_fields L fields) data size block
  = read_access_log_event L data size block.
Proof.
  intros Hbits. unfold read_access_log_event.
  cbn [with_fields sizeof_TfwBinLogEvent event_timestamp].
  generalize ({| cur_p := sizeof_TfwBinLogEvent L;
                 cur_size := to_int (size - sizeof_TfwBinLogEvent L);
                 cur_block := Append 0 (VUInt (event_timestamp L data)) block;
                 cur_reads := [(0, sizeof_TfwBinLogEvent L)] |}) as c.
  intros c.
  replace (fields_loop (with_fields L fields) data field_counters c)
    with (fields_loop L data field_counters c); [reflexivity|].
  revert c. induction field_counters as [|i cs IH]; intros c; [reflexivity|].
  cbn [fields_loop]. rewrite field_step_with_fields by exact Hbits.
  destruct (field_step L data i c); [apply IH|reflexivity].
Qed.

(** ** More on the supervisor *)


(** X14. A second session does not survive its join. [main] keeps the thread
    objects of every session in one vector and joins from index 0, so with
    at least one CPU the second successful [open] is followed by the spawns
    of the new workers and then by the system error that joining an already
    joined thread throws; the device of the second session is not closed. *)
Theorem main_second_session_throws (argv0 host : string) (cpu_cnt : nat)
    (r1 r2 : OpenResult) (rest : list OpenResult) :
  (0 < cpu_cnt)%nat ->
  open_ret r1 <> -1 ->
  open_ret r2 <> -1 ->
  main argv0 [host] cpu_cnt (r1 :: r2 :: rest)
  = (Open r1
     :: map (fun i => Spawn i (open_ret r1) host) (seq 0 cpu_cnt)
     ++ map Join (seq 0 cpu_cnt)
     ++ Close (open_ret r1)
     :: Open r2
     :: map (fun i => Spawn i (open_ret r2) host) (seq 0 cpu_cnt),
     Thrown system_error).
Proof.
  intros Hcpu Hr1 Hr2. unfold main.
  cbn [List.length Z.of_nat Pos.of_succ_nat Pos.succ Z.eqb Pos.eqb negb nth
       supervisor].
  replace (open_ret r1 =? -1) with false by (symmetry; now apply Z.eqb_neq).
  replace (open_ret r2 =? -1) with false by (symmetry; now apply Z.eqb_neq).
  change ([] ++ repeat true cpu_cnt)
    with (repeat false 0 ++ repeat true cpu_cnt).
  rewrite (join_loop_fresh 0 cpu_cnt). cbn [Nat.add].
  destruct cpu_cnt as [|n]; [lia|].
  cbn [join_loop repeat app nth_error]. rewrite app_nil_r. reflexivity.
Qed.

(** ** One row per event *)

(** X4. A decode that succeeds appends exactly one row. On a block with the
    columns of [make_block], a result that is not negative means that every
    one of the eleven columns is one row longer than before, and the block
    still has the columns of [make_block]. *)
Theorem read_access_log_event_appends_row (L : TfwBinLogEvent)
    (data : list byte) (size : Z) (block block' : Block) (r : Z)
    (reads : ReadLog) :
  well_formed block ->
  read_access_log_event L data size block = (r, block', reads) ->
  0 <= r ->
  col_lengths block' = map S (col_lengths block) /\ well_formed block'.
Proof.
  intros Hwf Hdec Hr.
  now destruct (read_access_log_event_success L data size block block' r reads
                  Hwf Hdec Hr) as (_ & Hcols & Hwf').
Qed.

(** ** The further properties on the test vectors *)

Lemma valid_minimal_event : valid_event minimal_event.
Proof. unfold valid_event; cbn. repeat split; (lia || discriminate). Qed.

Lemma valid_two_frames : Forall valid_frame two_frames.
Proof.
  repeat constructor; cbn; try lia; try discriminate;
    intros f Hf; destruct f; (reflexivity || discriminate Hf).
Qed.

Lemma aligned_make_block : aligned 0 make_block.
Proof. split; reflexivity. Qed.

Lemma decode_encoded_access_exact_witness :
  valid_event minimal_event /\ 0 <= 1 < 2 ^ 16 /\ well_formed make_block /\
  span_size (encode_access 1 minimal_event ++ []) <= INT_MAX /\
  body_room 1 minimal_event all_fields
    (span_size (encode_access 1 minimal_event ++ []) - 11) = false /\
  fst (fst (read_access_log_event spec_layout
              (encode_access 1 minimal_event ++ [])
              (span_size (encode_access 1 minimal_event ++ [])) make_block))
  = -1.
Proof.
  assert (Hmax : span_size (encode_access 1 minimal_event ++ []) <= INT_MAX)
    by (vm_compute; discriminate).
  split; [exact valid_minimal_event|]. split; [lia|].
  split; [reflexivity|]. split; [exact Hmax|]. split; [reflexivity|].
  exact (decode_encoded_access_exact 1 minimal_event [] make_block
           valid_minimal_event ltac:(lia) eq_refl Hmax).
Defined.

Lemma decode_encoded_access_witness :
  valid_event minimal_event /\ 0 <= 1 < 2 ^ 16 /\ well_formed make_block /\
  (16 <= List.length (repeat Byte.x00 16))%nat /\
  span_size (encode_access 1 minimal_event ++ repeat Byte.x00 16) <= INT_MAX /\
  fst (read_access_log_event spec_layout
         (encode_access 1 minimal_event ++ repeat Byte.x00 16)
         (span_size (encode_access 1 minimal_event ++ repeat Byte.x00 16))
         make_block)
  = (span_size (encode_access 1 minimal_event),
     append_row make_block (event_row 1 minimal_event)).
Proof.
  assert (Hmax : span_size (encode_access 1 minimal_event ++ repeat Byte.x00 16)
                 <= INT_MAX) by (vm_compute; discriminate).
  split; [exact valid_minimal_event|]. split; [lia|].
  split; [reflexivity|]. split; [cbn; lia|]. split; [exact Hmax|].
  apply (decode_encoded_access 1 minimal_event (repeat Byte.x00 16) make_block
           valid_minimal_event); [lia|reflexivity|cbn; lia|exact Hmax].
Defined.

Lemma decode_encoded_access_fixed_present_witness :
  fixed_fields_present 63 /\
  span_size (encode_access 63 fixed_only_event ++ []) <= INT_MAX /\
  fst (read_access_log_event spec_layout
         (encode_access 63 fixed_only_event ++ [])
         (span_size (encode_access 63 fixed_only_event ++ [])) make_block)
  = (39, append_row make_block (event_row 63 fixed_only_event)).
Proof.
  assert (Hmax : span_size (encode_access 63 fixed_only_event ++ []) <= INT_MAX)
    by (vm_compute; discriminate).
  assert (Hframes := valid_two_frames).
  apply Forall_valid_frame_cons in Hframes as [_ Hframes].
  apply Forall_valid_frame_cons in Hframes as [(Hv & Hm & Hf) _].
  split; [exact Hf|]. split; [exact Hmax|].
  exact (decode_encoded_access_fixed_present 63 fixed_only_event [] make_block
           Hv Hm Hf eq_refl Hmax).
Defined.

Lemma read_access_log_event_reads_witness :
  sizeof_TfwBinLogEvent spec_layout <= 39 <= INT_MAX /\
  (fst (fst (read_access_log_event spec_layout prefix_at_end 39 make_block)) < 0 ->
   exists reads', Forall (in_span 39) reads' /\
     (snd (read_access_log_event spec_layout prefix_at_end 39 make_block) = reads' \/
      exists off, 0 <= off <= 39 /\
        snd (read_access_log_event spec_layout prefix_at_end 39 make_block)
        = reads' ++ [(off, 2)])).
Proof.
  assert (Hsize : sizeof_TfwBinLogEvent spec_layout <= 39 <= INT_MAX)
    by (vm_compute; split; discriminate).
  split; [exact Hsize|].
  pose proof (read_access_log_event_reads spec_layout prefix_at_end 39
                make_block Hsize) as H.
  destruct (read_access_log_event spec_layout prefix_at_end 39 make_block)
    as [[r b] rd].
  exact (proj2 H).
Defined.

Lemma read_access_log_event_within_span_witness :
  sizeof_TfwBinLogEvent spec_layout <= span_size full_access <= INT_MAX /\
  fst (fst (read_access_log_event spec_layout full_access
              (span_size full_access) make_block)) = 50 /\
  sizeof_TfwBinLogEvent spec_layout
  <= fst (fst (read_access_log_event spec_layout full_access
                 (span_size full_access) make_block))
  <= span_size full_access.
Proof.
  assert (Hsize : sizeof_TfwBinLogEvent spec_layout
                  <= span_size full_access <= INT_MAX)
    by (vm_compute; split; discriminate).
  split; [exact Hsize|]. split; [vm_compute; reflexivity|].
  apply (read_access_log_event_within_span spec_layout full_access
           (span_size full_access) make_block Hsize).
  vm_compute; discriminate.
Defined.

Lemma read_access_log_event_appends_row_witness :
  well_formed make_block /\
  col_lengths (snd (fst (read_access_log_event spec_layout full_access
                           (span_size full_access) make_block)))
  = map S (col_lengths make_block).
Proof.
  split; [reflexivity|].
  apply (read_access_log_event_appends_row spec_layout full_access
           (span_size full_access) make_block _ 50
           (snd (read_access_log_event spec_layout full_access
                   (span_size full_access) make_block))).
  - reflexivity.
  - vm_compute; reflexivity.
  - lia.
Defined.

Lemma read_access_log_event_high_mask_bits_witness :
  read_access_log_event
    (with_fields spec_layout (fun ev => event_fields spec_layout ev + 1024))
    full_access (span_size full_access) make_block
  = read_access_log_event spec_layout full_access (span_size full_access)
      make_block.
Proof.
  apply (read_access_log_event_high_mask_bits spec_layout
           (fun ev => event_fields spec_layout ev + 1024)).
  intros j Hj.
  assert (Hcases : j = 0 \/ j = 1 \/ j = 2 \/ j = 3 \/ j = 4 \/ j = 5
                   \/ j = 6 \/ j = 7 \/ j = 8 \/ j = 9) by lia.
  repeat (destruct Hcases as [->|Hcases]; [vm_compute; reflexivity|]).
  subst j. vm_compute; reflexivity.
Defined.

Lemma callback_access_step_witness :
  callback spec_layout (full_access ++ full_access)
    (span_size (full_access ++ full_access)) empty_client
  = callback spec_layout full_access (span_size full_access)
      (with_block empty_client full_access_row).
Proof.
  assert (Hdec : read_access_log_event spec_layout (full_access ++ full_access)
                   (span_size (full_access ++ full_access))
                   (ch_block empty_client)
                 = (50, full_access_row,
                    snd (read_access_log_event spec_layout
                           (full_access ++ full_access)
                           (span_size (full_access ++ full_access))
                           (ch_block empty_client))))
    by (vm_compute; reflexivity).
  rewrite (callback_access_step spec_layout (full_access ++ full_access)
             (span_size (full_access ++ full_access)) empty_client
             50 full_access_row _
             ltac:(vm_compute; discriminate) eq_refl Hdec ltac:(lia)).
  reflexivity.
Defined.

Lemma callback_encoded_span_witness :
  two_frames <> [] /\ Forall valid_frame two_frames /\
  well_formed (ch_block empty_client) /\
  span_size (encode_span two_frames ++ []) <= INT_MAX /\
  callback spec_layout (encode_span two_frames ++ [])
    (span_size (encode_span two_frames ++ [])) empty_client
  = {| res_clickhouse :=
         commit (with_block empty_client (append_rows make_block two_frames));
       res_cerr := []; res_exit := ExitCommitted |}.
Proof.
  assert (Hmax : span_size (encode_span two_frames ++ []) <= INT_MAX)
    by (vm_compute; discriminate).
  split; [discriminate|]. split; [exact valid_two_frames|].
  split; [reflexivity|]. split; [exact Hmax|].
  exact (callback_encoded_span two_frames [] empty_client
           ltac:(discriminate) valid_two_frames eq_refl Hmax).
Defined.

Lemma callback_trailing_fragment_witness :
  (0 < List.length [Byte.x01; Byte.x00; Byte.x00] < 11)%nat /\
  callback spec_layout (encode_span two_frames ++ [Byte.x01; Byte.x00; Byte.x00])
    (span_size (encode_span two_frames ++ [Byte.x01; Byte.x00; Byte.x00]))
    empty_client
  = {| res_clickhouse :=
         with_block empty_client (append_rows make_block two_frames);
       res_cerr := []; res_exit := ExitShortHeader |}.
Proof.
  split; [cbn; lia|].
  apply (callback_trailing_fragment two_frames
           [Byte.x01; Byte.x00; Byte.x00] empty_client).
  - discriminate.
  - exact valid_two_frames.
  - reflexivity.
  - vm_compute; discriminate.
  - cbn; lia.
Defined.

Lemma callback_alignment_witness :
  aligned 0 (ch_block empty_client) /\
  res_exit (callback spec_layout minimal_access (span_size minimal_access)
              empty_client) = ExitDecodeFailed /\
  exists k j, (j < 10)%nat /\
    col_lengths (ch_block (res_clickhouse
                   (callback spec_layout minimal_access
                      (span_size minimal_access) empty_client)))
    = repeat (S (0 + k))%nat (S j) ++ repeat (0 + k)%nat (10 - j).
Proof.
  split; [exact aligned_make_block|]. split; [vm_compute; reflexivity|].
  pose proof (callback_alignment spec_layout minimal_access
                (span_size minimal_access) empty_client 0 aligned_make_block)
    as H.
  cbv zeta in H.
  replace (res_exit (callback spec_layout minimal_access
                       (span_size minimal_access) empty_client))
    with ExitDecodeFailed in H by (vm_compute; reflexivity).
  exact H.
Defined.

Lemma main_second_session_throws_witness :
  main "tfw_logger" ["localhost"%string] 1 [open_ok; open_ok]
  = ([Open open_ok; Spawn 0 3 "localhost"; Join 0; Close 3;
      Open open_ok; Spawn 0 3 "localhost"], Thrown system_error).
Proof.
  apply (main_second_session_throws "tfw_logger" "localhost" 1
           open_ok open_ok []); [lia|discriminate|discriminate].
Defined.

(** * Connection management: properties *)

(** ** The table of connection hooks *)

Lemma length_store {A : Type} (hid : nat) (a : A) (l : list A) :
  List.length (store hid a l) = List.length l.
Proof.
  revert hid; induction l as [|x l IH]; intros [|hid]; cbn; auto.
Qed.

Lemma nth_store_same {A : Type} (hid : nat) (a d : A) (l : list A) :
  (hid < List.length l)%nat -> nth hid (store hid a l) d = a.
Proof.
  revert hid; induction l as [|x l IH]; intros [|hid] H; cbn in *;
    try lia; auto. apply IH. lia.
Qed.

Lemma nth_store_other {A : Type} (hid k : nat) (a d : A) (l : list A) :
  k <> hid -> nth k (store hid a l) d = nth k l d.
Proof.
  revert hid k; induction l as [|x l IH]; intros [|hid] [|k] H; cbn;
    try congruence; auto.
Qed.

Lemma store_back {A : Type} (hid : nat) (a d : A) (l : list A) :
  (hid < List.length l)%nat ->
  store hid (nth hid l d) (store hid a l) = l.
Proof.
  revert hid; induction l as [|x l IH]; intros [|hid] H; cbn in *;
    try lia; auto. f_equal. apply IH. lia.
Qed.

Lemma register_done (E : HooksEnv) (hooks : option (Hooks E)) (type : Z)
    (conn_hooks conn_hooks' : ConnHooks E) :
  tfw_connection_hooks_register E hooks type conn_hooks = Done conn_hooks' ->
  (TFW_CONN_TYPE2IDX E type < TFW_CONN_MAX_PROTOS E)%nat /\
  nth (TFW_CONN_TYPE2IDX E type) conn_hooks None = None /\
  conn_hooks' = store (TFW_CONN_TYPE2IDX E type) hooks conn_hooks.
Proof.
  unfold tfw_connection_hooks_register.
  destruct (Nat.leb_spec (TFW_CONN_MAX_PROTOS E) (TFW_CONN_TYPE2IDX E type));
    cbn [orb]; [discriminate|].
  destruct (nth (TFW_CONN_TYPE2IDX E type) conn_hooks None);
    cbn [is_null negb]; [discriminate|].
  intros [= <-]. auto.
Qed.

(** X18. Registering and unregistering. A registration that goes through puts
    the hooks in the slot of the type and changes no other slot, and
    unregistering the type afterwards gives back the table as it was. *)
Theorem hooks_register_unregister (E : HooksEnv) (hooks : option (Hooks E))
    (type : Z) (conn_hooks conn_hooks' : ConnHooks E) :
  List.length conn_hooks = TFW_CONN_MAX_PROTOS E ->
  tfw_connection_hooks_register E hooks type conn_hooks = Done conn_hooks' ->
  nth (TFW_CONN_TYPE2IDX E type) conn_hooks' None = hooks /\
  (forall k, k <> TFW_CONN_TYPE2IDX E type ->
     nth k conn_hooks' None = nth k conn_hooks None) /\
  tfw_connection_hooks_unregister E type conn_hooks' = Done conn_hooks.
Proof.
  intros Hlen Hreg. apply register_done in Hreg as (Hhid & Hnull & ->).
  split; [apply nth_store_same; lia|].
  split; [intros k Hk; now apply nth_store_other|].
  unfold tfw_connection_hooks_unregister.
  replace (TFW_CONN_TYPE2IDX E type <? TFW_CONN_MAX_PROTOS E)%nat with true
    by (symmetry; now apply Nat.ltb_lt).
  f_equal. rewrite <- Hnull at 1. apply store_back. lia.
Qed.

(** X19. A slot is registered once. After hooks that are not null were
    registered for a type, registering for a type of the same slot again,
    with any hooks, runs into the [BUG_ON]. *)
Theorem hooks_register_twice (E : HooksEnv) (hooks : Hooks E)
    (hooks2 : option (Hooks E)) (type type2 : Z)
    (conn_hooks conn_hooks' : ConnHooks E) :
  List.length conn_hooks = TFW_CONN_MAX_PROTOS E ->
  tfw_connection_hooks_register E (Some hooks) type conn_hooks
  = Done conn_hooks' ->
  TFW_CONN_TYPE2IDX E type2 = TFW_CONN_TYPE2IDX E type ->
  tfw_connection_hooks_register E hooks2 type2 conn_hooks' = Bug.
Proof.
  intros Hlen Hreg Hslot. apply register_done in Hreg as (Hhid & _ & ->).
  unfold tfw_connection_hooks_register. rewrite Hslot.
  rewrite nth_store_same by lia. cbn [is_null negb].
  now rewrite orb_true_r.
Qed.

(** ** Receiving a chain of buffers *)

(** Once [r] is an error, the loop frees what is left and keeps [r]. *)
Lemma recv_loop_error (E : RecvEnv) (fuel : nat) (conn : Conn E) (r : Z)
    (chain : list (Skb E)) :
  recv_continues E r = false ->
  (List.length chain <= fuel)%nat ->
  recv_loop E fuel conn r chain = Some (conn, r, map Freed chain).
Proof.
  intros Herr. revert fuel.
  induction chain as [|skb next IH]; intros fuel Hfuel.
  - destruct fuel; reflexivity.
  - destruct fuel as [|fuel]; cbn [List.length] in Hfuel; [lia|].
    cbn [recv_loop]. rewrite Herr, IH by lia. reflexivity.
Qed.

(** The loop goes through the rounds that call a processor and, once they
    have ended on an error, frees the chain that is left. *)
Lemma recv_loop_rounds (E : RecvEnv) (n fuel : nat) (conn conn' : Conn E)
    (r0 r : Z) (chain chain' : list (Skb E)) (t : list (SkbEvent E)) :
  rounds E n conn r0 chain = (conn', r, chain', t) ->
  recv_continues E r = false ->
  (List.length t + List.length chain' <= fuel)%nat ->
  recv_loop E fuel conn r0 chain = Some (conn', r, t ++ map Freed chain').
Proof.
  revert fuel conn r0 chain t.
  induction n as [|n IH]; intros fuel conn r0 chain t Hrounds Herr Hfuel.
  { cbn [rounds] in Hrounds. injection Hrounds as <- <- <- <-.
    now apply recv_loop_error. }
  destruct chain as [|skb next].
  { cbn [rounds] in Hrounds. injection Hrounds as <- <- <- <-.
    now apply recv_loop_error. }
  cbn [rounds] in Hrounds.
  destruct (recv_continues E r0) eqn:Hr0.
  - destruct (msg_process E conn skb) as [[conn1 r1] splitted] eqn:Hproc.
    destruct (rounds E n conn1 r1
                match (if r1 =? T_DROP E then splitted else None) with
                | Some s => s :: next
                | None => next
                end) as [[[c rf] behind] t1] eqn:Hrest.
    injection Hrounds as <- <- <- <-.
    destruct fuel as [|fuel]; cbn [List.length Nat.add] in Hfuel; [lia|].
    cbn [recv_loop]. rewrite Hr0, Hproc.
    rewrite (IH fuel _ _ _ _ Hrest Herr) by lia. reflexivity.
  - injection Hrounds as <- <- <- <-.
    now apply recv_loop_error.
Qed.

(** The rounds that call a processor free nothing, and the last of them
    gave the value that [r] has after them. *)
Lemma rounds_processed (E : RecvEnv) (n : nat) (conn conn' : Conn E)
    (r0 r : Z) (chain chain' : list (Skb E)) (t : list (SkbEvent E)) :
  rounds E n conn r0 chain = (conn', r, chain', t) ->
  Forall (fun ev => ~ is_freed ev) t /\
  ((t = [] /\ r = r0) \/ exists pre s q, t = pre ++ [Processed s r q]).
Proof.
  revert conn r0 chain t.
  induction n as [|n IH]; intros conn r0 chain t Hrounds.
  { cbn [rounds] in Hrounds. injection Hrounds as <- <- <- <-. auto. }
  destruct chain as [|skb next].
  { cbn [rounds] in Hrounds. injection Hrounds as <- <- <- <-. auto. }
  cbn [rounds] in Hrounds.
  destruct (recv_continues E r0).
  - destruct (msg_process E conn skb) as [[conn1 r1] splitted].
    destruct (rounds E n conn1 r1
                match (if r1 =? T_DROP E then splitted else None) with
                | Some s => s :: next
                | None => next
                end) as [[[c rf] behind] t1] eqn:Hrest.
    injection Hrounds as <- <- <- <-.
    apply IH in Hrest as [Hall Hlast]. split.
    + constructor; [intros []|exact Hall].
    + right. destruct Hlast as [[-> ->]|(pre & s & q & ->)].
      * exists [], skb, (if r1 =? T_DROP E then splitted else None).
        reflexivity.
      * exists (Processed skb r1 (if r1 =? T_DROP E then splitted else None)
                :: pre), s, q.
        reflexivity.
  - injection Hrounds as <- <- <- <-. auto.
Qed.

Lemma recv_continues_T_OK (E : RecvEnv) : recv_continues E (T_OK E) = true.
Proof. unfold recv_continues. now rewrite Z.eqb_refl. Qed.

(** X15. Processing stops at the first error. In a call that does not find
    receiving stopped: once the rounds that call a processor have ended on
    a code other than [T_OK], [T_POSTPONE] and [T_DROP], given by the last
    of them, the call returns after freeing every buffer that is still in
    the chain, in order, without processing any of them; no buffer was freed
    before. The call ends on that code: the [BUG_ON] for [T_BLOCK],
    otherwise the code itself when it is at most [T_BAD], and [T_BAD] when
    it is not. One unit of fuel per round is enough. *)
Theorem tfw_connection_recv_stops_at_error (E : RecvEnv) (n fuel : nat)
    (conn conn' : Conn E) (skb : Skb E) (rest chain' : list (Skb E))
    (r : Z) (t : list (SkbEvent E)) :
  tfw_connection_stop_rcv E conn = false ->
  rounds E n conn (T_OK E) (skb :: rest) = (conn', r, chain', t) ->
  recv_continues E r = false ->
  (List.length t + List.length chain' <= fuel)%nat ->
  tfw_connection_recv E fuel conn skb rest
  = Some (conn', t ++ map Freed chain',
          if r =? T_BLOCK E then Bug
          else Done (if r <=? T_BAD E then r else T_BAD E))
  /\ Forall (fun ev => ~ is_freed ev) t
  /\ exists pre s q, t = pre ++ [Processed s r q].
Proof.
  intros Hstop Hrounds Herr Hfuel.
  pose proof (rounds_processed E n _ _ _ _ _ _ _ Hrounds) as [Hall Hlast].
  split; [|split; [exact Hall|]].
  - unfold tfw_connection_recv. rewrite Hstop.
    rewrite (recv_loop_rounds E n fuel _ _ _ _ _ _ _ Hrounds Herr Hfuel).
    do 2 f_equal. destruct (r =? T_BLOCK E); [reflexivity|].
    unfold recv_continues in Herr.
    apply orb_false_elim in Herr as [Herr _].
    apply orb_false_elim in Herr as [Hok _].
    now rewrite Hok, orb_false_r.
  - destruct Hlast as [[_ ->]|Hlast]; [|exact Hlast].
    now rewrite recv_continues_T_OK in Herr.
Qed.

Lemma recv_loop_covers (E : RecvEnv) (fuel : nat) (conn : Conn E) (r : Z)
    (chain : list (Skb E)) (c : Conn E) (rf : Z) (t : list (SkbEvent E)) :
  recv_loop E fuel conn r chain = Some (c, rf, t) ->
  (forall s, In s chain -> In s (map skb_of t)) /\
  (forall ev, In ev t ->
     In (skb_of ev) chain \/
     exists s, In (Processed s (T_DROP E) (Some (skb_of ev))) t).
Proof.
  revert conn r chain c rf t.
  induction fuel as [|fuel IH]; intros conn r chain c rf t.
  { destruct chain; cbn; [|discriminate]. intros [= <- <- <-].
    split; intros ? []. }
  destruct chain as [|skb0 next]; cbn [recv_loop].
  { intros [= <- <- <-]. split; intros ? []. }
  destruct (recv_continues E r).
  - destruct (msg_process E conn skb0) as [[conn1 r1] splitted].
    destruct (Z.eqb_spec r1 (T_DROP E)) as [Hdrop|Hdrop].
    + destruct (recv_loop E fuel conn1 r1
                  match splitted with Some s => s :: next | None => next end)
        as [[[c1 rf1] t1]|] eqn:Hloop; [|discriminate].
      intros [= <- <- <-].
      apply IH in Hloop as [Hin Hev]. split.
      * intros s [<-|Hs]; [now left|]. right. apply Hin.
        destruct splitted; [now right|exact Hs].
      * intros ev [<-|Hevt]; [left; now left|].
        destruct (Hev ev Hevt) as [Hc|(s & Hq)].
        -- destruct splitted as [sq|].
           ++ destruct Hc as [<-|Hc]; [|left; now right].
              right. exists skb0. left. now rewrite Hdrop.
           ++ left; now right.
        -- right. exists s. now right.
    + destruct (recv_loop E fuel conn1 r1 next)
        as [[[c1 rf1] t1]|] eqn:Hloop; [|discriminate].
      intros [= <- <- <-].
      apply IH in Hloop as [Hin Hev]. split.
      * intros s [<-|Hs]; [now left|]. right. now apply Hin.
      * intros ev [<-|Hevt]; [left; now left|].
        destruct (Hev ev Hevt) as [Hc|(s & Hq)].
        -- left; now right.
        -- right. exists s. now right.
  - destruct (recv_loop E fuel conn r next) as [[[c1 rf1] t1]|] eqn:Hloop;
      [|discriminate].
    intros [= <- <- <-].
    apply IH in Hloop as [Hin Hev]. split.
    + intros s [<-|Hs]; [now left|]. right. now apply Hin.
    + intros ev [<-|Hevt]; [left; now left|].
      destruct (Hev ev Hevt) as [Hc|(s & Hq)].
      * left; now right.
      * right. exists s. now right.
Qed.

(** X16. No buffer is forgotten. In a call that does not find receiving stopped,
    every buffer of the chain is processed or freed, and every buffer that
    is processed or freed comes from the chain or was split off a buffer
    whose processing returned [T_DROP], and queued then. *)
Theorem tfw_connection_recv_covers_chain (E : RecvEnv) (fuel : nat)
    (conn conn' : Conn E) (skb : Skb E) (rest : list (Skb E))
    (t : list (SkbEvent E)) (out : Kernel Z) :
  tfw_connection_stop_rcv E conn = false ->
  tfw_connection_recv E fuel conn skb rest = Some (conn', t, out) ->
  (forall s, In s (skb :: rest) -> In s (map skb_of t)) /\
  (forall ev, In ev t ->
     In (skb_of ev) (skb :: rest) \/
     exists s, In (Processed s (T_DROP E) (Some (skb_of ev))) t).
Proof.
  intros Hstop. unfold tfw_connection_recv. rewrite Hstop.
  destruct (recv_loop E fuel conn (T_OK E) (skb :: rest))
    as [[[c rf] t1]|] eqn:Hloop; [|discriminate].
  intros [= <- <- <-].
  now apply recv_loop_covers in Hloop.
Qed.

Lemma recv_loop_no_split (E : RecvEnv) (chain : list (Skb E)) :
  (forall c s, snd (tfw_http_msg_process E c s) = None) ->
  forall fuel conn r,
    (List.length chain <= fuel)%nat ->
    exists c rf t,
      recv_loop E fuel conn r chain = Some (c, rf, t) /\
      map skb_of t = chain.
Proof.
  intros Hnone. induction chain as [|skb0 next IH]; intros fuel conn r Hfuel.
  - exists conn, r, []. destruct fuel; auto.
  - destruct fuel as [|fuel]; cbn [List.length] in Hfuel; [lia|].
    cbn [recv_loop].
    destruct (recv_continues E r).
    + assert (Hsplit : snd (msg_process E conn skb0) = None).
      { unfold msg_process.
        destruct ((TFW_CONN_PROTO E conn =? TFW_FSM_WS E)
                  || (TFW_CONN_PROTO E conn =? TFW_FSM_WSS E)).
        - now destruct (tfw_ws_msg_process E conn skb0).
        - apply Hnone. }
      destruct (msg_process E conn skb0) as [[conn1 r1] splitted].
      cbn [snd] in Hsplit. subst splitted.
      replace (if r1 =? T_DROP E then None else None)
        with (@None (Skb E)) by now destruct (r1 =? T_DROP E).
      destruct (IH fuel conn1 r1 ltac:(lia)) as (c & rf & t & Hloop & Hmap).
      rewrite Hloop. exists c, rf, (Processed skb0 r1 None :: t).
      split; [reflexivity|]. cbn. now rewrite Hmap.
    + destruct (IH fuel conn r ltac:(lia)) as (c & rf & t & Hloop & Hmap).
      rewrite Hloop. exists c, rf, (Freed skb0 :: t).
      split; [reflexivity|]. cbn. now rewrite Hmap.
Qed.

(** X17. Without splits, one round per buffer. When the HTTP processor never
    hands back a split buffer, a call that does not find receiving stopped
    ends after as many rounds as the chain has buffers, and it has processed
    or freed exactly the buffers of the chain, each once and in the order of
    the chain. *)
Theorem tfw_connection_recv_whole_chain (E : RecvEnv) (conn : Conn E)
    (skb : Skb E) (rest : list (Skb E)) :
  (forall c s, snd (tfw_http_msg_process E c s) = None) ->
  tfw_connection_stop_rcv E conn = false ->
  exists conn' t out,
    tfw_connection_recv E (S (List.length rest)) conn skb rest
    = Some (conn', t, out) /\
    map skb_of t = skb :: rest.
Proof.
  intros Hnone Hstop. unfold tfw_connection_recv. rewrite Hstop.
  destruct (recv_loop_no_split E (skb :: rest) Hnone (S (List.length rest))
              conn (T_OK E) ltac:(cbn; lia)) as (c & rf & t & Hloop & Hmap).
  rewrite Hloop. eauto.
Qed.

(** * The debug dump: properties *)

Lemma hex_digits_length (fuel n : nat) (z : Z) :
  (1 <= n)%nat -> 0 <= z < 16 ^ Z.of_nat n ->
  (List.length (hex_digits fuel z) <= n)%nat.
Proof.
  revert n z; induction fuel as [|fuel IH]; intros n z Hn Hz; cbn [hex_digits].
  - cbn. lia.
  - cbn [List.length].
    destruct (Z.eqb_spec (z / 16) 0) as [Hq|Hq]; [cbn; lia|].
    destruct n as [|[|n]]; [lia| |].
    + exfalso. apply Hq. apply Z.div_small. cbn in Hz. lia.
    + specialize (IH (S n) (z / 16) ltac:(lia)).
      assert (0 <= z / 16 < 16 ^ Z.of_nat (S n)); [|lia].
      replace (Z.of_nat (S (S n))) with (Z.of_nat (S n) + 1) in Hz by lia.
      rewrite Z.pow_add_r in Hz by lia.
      split; [apply Z.div_pos; lia|].
      apply Z.div_lt_upper_bound; lia.
Qed.

Lemma length_printf_0x (width : nat) (z : Z) :
  (1 <= width)%nat -> 0 <= z < 16 ^ Z.of_nat width ->
  List.length (printf_0x width z) = width.
Proof.
  intros Hw Hz. unfold printf_0x.
  pose proof (hex_digits_length 16 width z Hw Hz).
  rewrite length_app, repeat_length, length_rev. lia.
Qed.

Lemma length_flat_map_const {A B : Type} (f : A -> list B) (n : nat)
    (l : list A) :
  (forall x, List.length (f x) = n) ->
  List.length (flat_map f l) = (n * List.length l)%nat.
Proof.
  intros Hf. induction l as [|x l IH]; cbn [flat_map List.length]; [lia|].
  rewrite length_app, Hf, IH. lia.
Qed.

Lemma flat_map_threshold {B : Type} (i buflen : Z) (h : Z -> B)
    (len a : nat) :
  flat_map (fun j => if i + j <? buflen then [h j] else [])
           (map Z.of_nat (seq a len))
  = map h (map Z.of_nat (seq a (Nat.min len (Z.to_nat (buflen - i) - a)))).
Proof.
  revert a; induction len as [|len IH]; intros a; [reflexivity|].
  cbn [seq map flat_map]. rewrite IH.
  destruct (Z.ltb_spec (i + Z.of_nat a) buflen).
  - replace (Z.to_nat (buflen - i) - a)%nat
      with (S (Z.to_nat (buflen - i) - S a)) by lia.
    reflexivity.
  - replace (Z.to_nat (buflen - i) - a)%nat with 0%nat by lia.
    replace (Z.to_nat (buflen - i) - S a)%nat with 0%nat by lia.
    now rewrite !Nat.min_0_r.
Qed.

Lemma hexdump_loop_length (buf : list byte) (buflen : Z) (fuel : nat) (i : Z) :
  (Z.to_nat (buflen - i) <= fuel)%nat ->
  buflen <= INT_MAX ->
  List.length (fst (hexdump_loop fuel buf buflen i))
  = Z.to_nat ((buflen - i + 15) / 16).
Proof.
  unfold INT_MAX at 1.
  revert i; induction fuel as [|fuel IH]; intros i Hfuel Hmax;
    cbn [hexdump_loop].
  - cbn [fst List.length].
    assert ((buflen - i + 15) / 16 <= 0); [|lia].
    apply Z.lt_succ_r. apply Z.div_lt_upper_bound; lia.
  - destruct (Z.ltb_spec i buflen).
    + rewrite Z.gtb_ltb.
      destruct (Z.ltb_spec INT_MAX (i + 16)) as [Ho|Ho];
        unfold INT_MAX in Ho.
      * cbn [fst List.length].
        replace ((buflen - i + 15) / 16) with 1; [reflexivity|].
        apply Z.div_unique with (r := buflen - i - 1); lia.
      * specialize (IH (i + 16) ltac:(lia) Hmax).
        destruct (hexdump_loop fuel buf buflen (i + 16)) as [lines e].
        cbn [fst List.length] in *. rewrite IH.
        replace (buflen - i + 15) with (buflen - (i + 16) + 15 + 1 * 16) by lia.
        rewrite Z.div_add by lia.
        assert (0 <= (buflen - (i + 16) + 15) / 16) by (apply Z.div_pos; lia).
        lia.
    + cbn [fst List.length].
      assert ((buflen - i + 15) / 16 <= 0); [|lia].
      apply Z.lt_succ_r. apply Z.div_lt_upper_bound; lia.
Qed.

(** The loop ends in the overflow exactly when [buflen] is above the last
    multiple of sixteen that an [int] holds. *)
Lemma hexdump_loop_end (buf : list byte) (buflen : Z) (fuel : nat) (q : Z) :
  (Z.to_nat (buflen - 16 * q) <= fuel)%nat ->
  buflen <= INT_MAX ->
  snd (hexdump_loop fuel buf buflen (16 * q))
  = if (16 * q <? buflen) && (INT_MAX - 15 <? buflen) then IntOverflow
    else LoopDone.
Proof.
  unfold INT_MAX at 1.
  revert q; induction fuel as [|fuel IH]; intros q Hfuel Hmax;
    cbn [hexdump_loop].
  - cbn [snd]. destruct (Z.ltb_spec (16 * q) buflen); [lia|reflexivity].
  - destruct (Z.ltb_spec (16 * q) buflen); cbn [andb]; [|reflexivity].
    rewrite Z.gtb_ltb.
    destruct (Z.ltb_spec INT_MAX (16 * q + 16)) as [Ho|Ho];
      unfold INT_MAX in Ho.
    + cbn [snd].
      destruct (Z.ltb_spec (INT_MAX - 15) buflen) as [Hb|Hb];
        unfold INT_MAX in Hb; [reflexivity|lia].
    + specialize (IH (q + 1)).
      replace (16 * (q + 1)) with (16 * q + 16) in IH by lia.
      specialize (IH ltac:(lia) Hmax).
      destruct (hexdump_loop fuel buf buflen (16 * q + 16)) as [lines e].
      cbn [snd] in *. rewrite IH.
      destruct (Z.ltb_spec (INT_MAX - 15) buflen) as [Hb|Hb];
        unfold INT_MAX in Hb; [|now rewrite andb_false_r].
      destruct (Z.ltb_spec (16 * q + 16) buflen); [reflexivity|lia].
Qed.

Lemma hexdump_loop_nth (buf : list byte) (buflen : Z) (k fuel : nat) (i : Z) :
  (Z.to_nat (buflen - i) <= fuel)%nat ->
  buflen <= INT_MAX - 15 ->
  i + 16 * Z.of_nat k < buflen ->
  nth k (fst (hexdump_loop fuel buf buflen i)) []
  = hexdump_line buf buflen (i + 16 * Z.of_nat k).
Proof.
  revert fuel i; induction k as [|k IH]; intros fuel i Hfuel Hmax Hk;
    (destruct fuel as [|fuel]; [lia|]); cbn [hexdump_loop];
    (destruct (Z.ltb_spec i buflen); [|lia]);
    rewrite Z.gtb_ltb;
    (destruct (Z.ltb_spec INT_MAX (i + 16)); [lia|]).
  - destruct (hexdump_loop fuel buf buflen (i + 16)) as [lines e].
    cbn [fst nth]. f_equal. lia.
  - specialize (IH fuel (i + 16) ltac:(lia) Hmax ltac:(lia)).
    destruct (hexdump_loop fuel buf buflen (i + 16)) as [lines e].
    cbn [fst nth] in *. rewrite IH. f_equal. lia.
Qed.

(** X20. The number of lines. [hexdump] prints one line for every sixteen bytes
    or part of sixteen, and nothing when [buflen] is zero or negative. Up to
    a [buflen] of [INT_MAX - 15] the loop then ends by its test; above it,
    the [i += 16] after the last line overflows. *)
Theorem hexdump_line_count (data : list byte) (buflen : Z) :
  buflen <= INT_MAX ->
  List.length (fst (hexdump data buflen)) = Z.to_nat ((buflen + 15) / 16)
  /\ snd (hexdump data buflen)
     = (if buflen <=? INT_MAX - 15 then LoopDone else IntOverflow).
Proof.
  intros Hmax. unfold hexdump. split.
  - rewrite hexdump_loop_length by (trivial; lia).
    now rewrite Z.sub_0_r.
  - change 0 with (16 * 0) at 1.
    rewrite hexdump_loop_end by (trivial; lia).
    destruct (Z.ltb_spec (16 * 0) buflen), (Z.ltb_spec (INT_MAX - 15) buflen),
      (Z.leb_spec buflen (INT_MAX - 15)); cbn [andb]; try reflexivity;
      unfold INT_MAX in *; lia.
Qed.

(** X21. The shape of a line. In a dump of less than 2^24 bytes, line [k] is the
    offset [16 k] in six hexadecimal digits, a colon and a space, a hex
    column of 48 characters, a space, and then one character for each of
    the bytes of the line, up to sixteen: the byte itself when it is
    printable and a dot when it is not. The text therefore starts at the
    same column on every line. *)
Theorem hexdump_line_shape (data : list byte) (buflen : Z) (k : nat) :
  buflen <= 2 ^ 24 ->
  16 * Z.of_nat k < buflen ->
  exists offset hex,
    nth k (fst (hexdump data buflen)) []
    = offset ++ [":"%char; " "%char] ++ hex ++ [" "%char]
      ++ map (fun j => PRINT_CHAR (byte_at data (16 * Z.of_nat k + j)))
           (map Z.of_nat
              (seq 0 (Nat.min 16 (Z.to_nat (buflen - 16 * Z.of_nat k)))))
    /\ offset = printf_0x 6 (16 * Z.of_nat k)
    /\ List.length offset = 6%nat
    /\ List.length hex = 48%nat.
Proof.
  intros Hmax Hk.
  unfold hexdump. rewrite hexdump_loop_nth by (unfold INT_MAX; lia).
  cbn [Z.add]. unfold hexdump_line.
  eexists. eexists. split; [|split; [reflexivity|split]].
  - f_equal. cbn [list_ascii_of_string app]. do 3 f_equal.
    unfold dump_columns.
    rewrite (flat_map_threshold (16 * Z.of_nat k) buflen
               (fun j => PRINT_CHAR (byte_at data (16 * Z.of_nat k + j)))
               16 0).
    now rewrite Nat.sub_0_r.
  - apply length_printf_0x; [lia|].
    change (16 ^ Z.of_nat 6) with (2 ^ 24). lia.
  - rewrite (length_flat_map_const _ 3); [reflexivity|].
    intros j. destruct (16 * Z.of_nat k + j <? buflen); [|reflexivity].
    rewrite length_app, length_printf_0x; [reflexivity|lia|].
    pose proof (byte.unsigned_range (byte_at data (16 * Z.of_nat k + j))).
    change (16 ^ Z.of_nat 2) with (2 ^ 8). lia.
Qed.

(** ** These properties on the test vectors *)

Lemma hooks_register_unregister_witness :
  List.length (no_hooks four_slots) = TFW_CONN_MAX_PROTOS four_slots /\
  tfw_connection_hooks_register four_slots (Some 7%nat) 5 (no_hooks four_slots)
  = Done [None; Some 7%nat; None; None] /\
  tfw_connection_hooks_unregister four_slots 5 [None; Some 7%nat; None; None]
  = Done (no_hooks four_slots).
Proof.
  split; [reflexivity|]. split; [reflexivity|].
  apply (hooks_register_unregister four_slots (Some 7%nat) 5
           (no_hooks four_slots) [None; Some 7%nat; None; None]);
    reflexivity.
Defined.

Lemma hooks_register_twice_witness :
  TFW_CONN_TYPE2IDX four_slots 9 = TFW_CONN_TYPE2IDX four_slots 5 /\
  tfw_connection_hooks_register four_slots (Some 8%nat) 9
    [None; Some 7%nat; None; None]
  = Bug.
Proof.
  split; [reflexivity|].
  apply (hooks_register_twice four_slots 7%nat (Some 8%nat) 5 9
           (no_hooks four_slots) [None; Some 7%nat; None; None]);
    reflexivity.
Defined.

Lemma tfw_connection_recv_stops_at_error_witness :
  rounds sample_recv 2 tt (T_OK sample_recv) [1%nat; 2%nat; 3%nat]
  = (tt, -3, [3%nat],
     [@Processed sample_recv 1%nat 0 None;
      @Processed sample_recv 2%nat (-3) None]) /\
  tfw_connection_recv sample_recv 3 tt 1%nat [2%nat; 3%nat]
  = Some (tt, sample_trace, Done (-3)).
Proof.
  split; [reflexivity|].
  apply (proj1 (tfw_connection_recv_stops_at_error sample_recv 2 3 tt tt
                  1%nat [2%nat; 3%nat] [3%nat] (-3)
                  [@Processed sample_recv 1%nat 0 None;
                   @Processed sample_recv 2%nat (-3) None]
                  eq_refl eq_refl eq_refl ltac:(cbn; lia))).
Defined.

Lemma tfw_connection_recv_covers_chain_witness :
  tfw_connection_recv splitting_recv 3 tt 1%nat [2%nat]
  = Some (tt, split_trace, Done 0) /\
  (forall s : Skb splitting_recv,
     In s [1%nat; 2%nat] -> In s (map skb_of split_trace)) /\
  (In 10%nat [1%nat; 2%nat] \/
   exists s : Skb splitting_recv,
     In (Processed s (T_DROP splitting_recv) (Some 10%nat)) split_trace).
Proof.
  pose proof (tfw_connection_recv_covers_chain splitting_recv 3 tt tt
                1%nat [2%nat] split_trace (Done 0) eq_refl eq_refl)
    as [Hchain Hevents].
  split; [reflexivity|]. split; [exact Hchain|].
  apply (Hevents (@Processed splitting_recv 10%nat 0 None)).
  right; left; reflexivity.
Defined.

Lemma tfw_connection_recv_whole_chain_witness :
  exists conn' t out,
    tfw_connection_recv sample_recv 3 tt 1%nat [2%nat; 3%nat]
    = Some (conn', t, out) /\
    map skb_of t = [1%nat; 2%nat; 3%nat].
Proof.
  apply (tfw_connection_recv_whole_chain sample_recv tt 1%nat [2%nat; 3%nat]);
    reflexivity.
Defined.

Lemma hexdump_line_count_witness :
  50 <= INT_MAX /\
  List.length (fst (hexdump full_access 50)) = 4%nat /\
  snd (hexdump full_access 50) = LoopDone.
Proof.
  split; [vm_compute; discriminate|].
  apply (hexdump_line_count full_access 50). vm_compute; discriminate.
Defined.

Lemma hexdump_line_shape_witness :
  50 <= 2 ^ 24 /\ 16 * Z.of_nat 3 < 50 /\
  nth 3 (fst (hexdump full_access 50)) []
  = list_ascii_of_string
      "000030: 00 78                                            .x" /\
  exists offset hex,
    nth 3 (fst (hexdump full_access 50)) []
    = offset ++ [":"%char; " "%char] ++ hex ++ [" "%char]
      ++ map (fun j => PRINT_CHAR (byte_at full_access (16 * Z.of_nat 3 + j)))
           (map Z.of_nat
              (seq 0 (Nat.min 16 (Z.to_nat (50 - 16 * Z.of_nat 3)))))
    /\ offset = printf_0x 6 (16 * Z.of_nat 3)
    /\ List.length offset = 6%nat
    /\ List.length hex = 48%nat.
Proof.
  split; [vm_compute; discriminate|]. split; [cbn; lia|].
  split; [vm_compute; reflexivity|].
  apply (hexdump_line_shape full_access 50 3);
    [vm_compute; discriminate|cbn; lia].
Defined.
